(** * HW/SW parity checker for the fixed-point EMA crossover strategy

    Shallow embedding of [python_version/check_match.py] (and of the
    [ema_q16] it shares with [python_version/crossover_strategy.py]).

    - Prices are Q16.16 values held in NumPy [int64] cells
      ([to_numpy(dtype=np.int64)], [np.array(out, dtype=np.int64)]); they
      are modelled as [Z] with the 64-bit wrap-around written out
      ([Int64]).
    - Data frames are lists of rows in frame order: the order of the rows
      and duplicate ticks both matter to [drop_duplicates] and [pd.merge].
    - The hardware log is the list of its lines; a missing file is [None]. *)

From Stdlib Require Import ZArith List Bool Lia.
From Stdlib Require Import Strings.String Strings.Ascii.
From Stdlib Require Import QArith.
From Stdlib Require Import Sorting.Sorted.
Import ListNotations.

Local Open Scope Z_scope.

(* ===================================================================== *)
(** ** Signed 64-bit cells (NumPy [int64] scalars) *)
(* ===================================================================== *)

Module Int64.

Definition min_int : Z := - 2 ^ 63.
Definition max_int : Z := 2 ^ 63 - 1.

Definition in_range (z : Z) : Prop := min_int <= z <= max_int.

(** Two's-complement reduction of an exact result to 64 bits. *)
Definition wrap (z : Z) : Z := (z + 2 ^ 63) mod 2 ^ 64 - 2 ^ 63.

(** [a + b] and [a - b] on [int64] scalars: the exact result, wrapped. *)
Definition add (a b : Z) : Z := wrap (a + b).
Definition sub (a b : Z) : Z := wrap (a - b).

(** [a >> n] on an [int64] scalar for [0 <= n]: the machine shift while
    [n] is below the width, and the sign fill (0 or -1) from there on. *)
Definition rshift (a n : Z) : Z :=
  if n <? 64 then Z.shiftr a n
  else if a <? 0 then -1 else 0.

End Int64.

(* ===================================================================== *)
(** ** [ema_q16] *)
(* ===================================================================== *)

(** EMA parameters, check_match.py lines 12-13. *)
Definition FAST_SH : Z := 1.
Definition SLOW_SH : Z := 6.

(** One iteration of the loop body of [ema_q16]; [avg] is [None] before the
    first sample (the Python [None] sentinel). *)
Definition ema_update (alpha_sh : Z) (avg : option Z) (x : Z) : Z :=
  match avg with
  | None => x
  | Some a => Int64.add a (Int64.rshift (Int64.sub x a) alpha_sh)
  end.

(** The [for x in q16_prices] loop: the list of values appended to [out]. *)
Fixpoint ema_loop (alpha_sh : Z) (avg : option Z) (q16_prices : list Z) : list Z :=
  match q16_prices with
  | [] => []
  | x :: rest =>
      let avg' := ema_update alpha_sh avg x in
      avg' :: ema_loop alpha_sh (Some avg') rest
  end.

Definition ema_q16 (q16_prices : list Z) (alpha_sh : Z) : list Z :=
  ema_loop alpha_sh None q16_prices.

(** [lo <= z <= hi]. *)
Definition within (lo hi z : Z) : Prop := lo <= z <= hi.

(** Least and greatest element of a list (0 on the empty list). *)
Definition lo_of (xs : list Z) : Z := fold_right Z.min (hd 0 xs) xs.
Definition hi_of (xs : list Z) : Z := fold_right Z.max (hd 0 xs) xs.

(* ===================================================================== *)
(** ** Software signal trace ([main], lines 63-78) *)
(* ===================================================================== *)

Definition BUY : Z := 1.
Definition SELL : Z := -1.
Definition HOLD : Z := 0.

(** The three-way branch of the [for f, s in zip(fast, slow)] loop. *)
Definition classify (f s : Z) : Z :=
  if f >? s then 1
  else if f <? s then -1
  else 0.

(** A two-column data frame: rows [(tick, signal)] in frame order. *)
Definition frame : Type := list (Z * Z).

Definition frame_ticks (fr : frame) : list Z := map fst fr.

(** [range(1, n + 1)]. *)
Definition range1 (n : nat) : list Z := map Z.of_nat (seq 1 n).

Definition sw_signals (fast_sh slow_sh : Z) (q16_prices : list Z) : list Z :=
  let fast := ema_q16 q16_prices fast_sh in
  let slow := ema_q16 q16_prices slow_sh in
  map (fun fs => classify (fst fs) (snd fs)) (combine fast slow).

(** The frame [sw] with columns [tick] and [sw_sig]. *)
Definition sw_frame_with (fast_sh slow_sh : Z) (q16_prices : list Z) : frame :=
  let sw_sig := sw_signals fast_sh slow_sh q16_prices in
  combine (range1 (List.length sw_sig)) sw_sig.

Definition sw_frame (q16_prices : list Z) : frame :=
  sw_frame_with FAST_SH SLOW_SH q16_prices.

(* ===================================================================== *)
(** ** [read_hw_log] *)
(* ===================================================================== *)

(** The pattern [tick\s+(\d+)\s*->\s*signal=(\d+)] on ASCII text.  [\s] is
    Python's whitespace class restricted to ASCII (TAB..CR, FS..US, space),
    [\d] the ASCII digits.  No piece of the pattern can start with a
    character that the greedy class before it accepts, so the greedy match
    never has to give characters back and a single left-to-right pass
    decides the match at a given offset. *)

Definition is_space (c : ascii) : bool :=
  let n := N_of_ascii c in
  ((9 <=? n) && (n <=? 13) || (28 <=? n) && (n <=? 32))%N.

Definition is_digit (c : ascii) : bool :=
  let n := N_of_ascii c in
  ((48 <=? n) && (n <=? 57))%N.

Fixpoint take_while (p : ascii -> bool) (s : string) : string :=
  match s with
  | String c s' => if p c then String c (take_while p s') else EmptyString
  | EmptyString => EmptyString
  end.

Fixpoint drop_while (p : ascii -> bool) (s : string) : string :=
  match s with
  | String c s' => if p c then drop_while p s' else s
  | EmptyString => EmptyString
  end.

Fixpoint strip_prefix (lit s : string) : option string :=
  match lit with
  | EmptyString => Some s
  | String a lit' =>
      match s with
      | String b s' => if Ascii.eqb a b then strip_prefix lit' s' else None
      | EmptyString => None
      end
  end.

Definition is_empty (s : string) : bool :=
  match s with EmptyString => true | String _ _ => false end.

Notation "x <- e ;; k" :=
  (match e with Some x => k | None => None end)
  (at level 61, e at next level, right associativity, only parsing).

(** The match anchored at the first character of [s]: groups 1 and 2. *)
Definition match_at (s : string) : option (string * string) :=
  r1 <- strip_prefix "tick" s ;;
  if is_empty (take_while is_space r1) then None else
  let r2 := drop_while is_space r1 in
  let g1 := take_while is_digit r2 in
  if is_empty g1 then None else
  let r3 := drop_while is_space (drop_while is_digit r2) in
  r4 <- strip_prefix "->" r3 ;;
  r5 <- strip_prefix "signal=" (drop_while is_space r4) ;;
  let g2 := take_while is_digit r5 in
  if is_empty g2 then None else Some (g1, g2).

(** [re.search]: the match at the leftmost offset that has one. *)
Fixpoint re_search (line : string) : option (string * string) :=
  match match_at line with
  | Some m => Some m
  | None =>
      match line with
      | String _ rest => re_search rest
      | EmptyString => None
      end
  end.

(** [int] on a string of ASCII digits. *)
Fixpoint int_digits (acc : Z) (s : string) : Z :=
  match s with
  | String c s' => int_digits (10 * acc + (Z.of_N (N_of_ascii c) - 48)) s'
  | EmptyString => acc
  end.

Definition int (s : string) : Z := int_digits 0 s.

(** Lines 42-47: the 2-bit hardware code as a signed signal. *)
Definition decode_signal (s : Z) : Z :=
  if s =? 3 then -1
  else if s =? 1 then 1
  else 0.

Definition parse_line (line : string) : option (Z * Z) :=
  m <- re_search line ;;
  Some (int (fst m), decode_signal (int (snd m))).

(** The list [rows] after the [for line in f] loop. *)
Fixpoint hw_rows (lines : list string) : frame :=
  match lines with
  | [] => []
  | line :: rest =>
      match parse_line line with
      | Some row => row :: hw_rows rest
      | None => hw_rows rest
      end
  end.

(** [DataFrame.drop_duplicates("tick")] (keep="first"): a row stays when no
    earlier row carries its tick; the remaining rows keep their order. *)
Fixpoint drop_dups_from (seen : list Z) (rows : frame) : frame :=
  match rows with
  | [] => []
  | (t, s) :: rest =>
      if existsb (Z.eqb t) seen then drop_dups_from seen rest
      else (t, s) :: drop_dups_from (t :: seen) rest
  end.

Definition drop_duplicates (rows : frame) : frame := drop_dups_from [] rows.

(** What a call can do: return a value, or leave through [sys.exit]. *)
Inductive result (A : Type) : Type :=
| Return (a : A)
| SysExit (code : Z).
Arguments Return {A} a.
Arguments SysExit {A} code.

(** [file] is the content of [path] as its lines, [None] when [open]
    raises [FileNotFoundError]. *)
Definition read_hw_log (file : option (list string)) : result frame :=
  match file with
  | None => SysExit 1
  | Some lines => Return (drop_duplicates (hw_rows lines))
  end.

(* ===================================================================== *)
(** ** Merge and compare ([main], lines 84-112) *)
(* ===================================================================== *)

Record row : Type := mk_row { tick : Z; hw_sig : Z; sw_sig : Z }.

(** [pd.merge(hw, sw, on="tick", how="inner")] with the default
    [sort=False]: every pair of a left and a right row with equal ticks,
    in the order of the left keys. *)
Definition merge_inner (hw sw : frame) : list row :=
  flat_map
    (fun l => map (fun r => mk_row (fst l) (snd l) (snd r))
                  (filter (fun r => fst r =? fst l) sw))
    hw.

(** The [match] column: [(hw_sig == sw_sig).astype(int)]. *)
Definition match_col (r : row) : Z :=
  if hw_sig r =? sw_sig r then 1 else 0.

Definition sum_Z (xs : list Z) : Z := fold_right Z.add 0 xs.

Record parity_report : Type := mk_report {
  merged : list row;            (* the merged frame, in frame order *)
  ticks_compared : nat;         (* len(merged) *)
  match_count : Z;              (* merged["match"].sum() *)
  acc : Q;                      (* merged["match"].mean() * 100 *)
  mismatches : list row         (* merged[merged["match"] == 0] *)
}.

(** How a run of [main] ends. *)
Inductive outcome : Type :=
| LogNotFound (code : Z)       (* read_hw_log left through sys.exit *)
| NoOverlap                    (* lines 86-89: message and return *)
| Report (r : parity_report).  (* lines 91-112 *)

Definition compare (hw sw : frame) : outcome :=
  let m := merge_inner hw sw in
  match m with
  | [] => NoOverlap
  | _ :: _ =>
      let hits := sum_Z (map match_col m) in
      Report {| merged := m;
                ticks_compared := List.length m;
                match_count := hits;
                acc := (inject_Z hits / inject_Z (Z.of_nat (List.length m)) * 100)%Q;
                mismatches := filter (fun r => match_col r =? 0) m |}
  end.

(** [first10] and [first12] are the rows the report prints. *)
Definition first_mismatches (r : parity_report) : list row := firstn 10 (mismatches r).
Definition sample (r : parity_report) : list row := firstn 12 (merged r).

(** The match rate as printed by [{acc:.2f}] is [acc] in hundredths of a
    percent; this is the exact value of that quantity. *)
Definition acc_hundredths (r : parity_report) : Q := (acc r * 100)%Q.

Definition main (q16_prices : list Z) (hw_log : option (list string)) : outcome :=
  let sw := sw_frame q16_prices in
  match read_hw_log hw_log with
  | SysExit code => LogNotFound code
  | Return hw => compare hw sw
  end.

(** Strictly ascending ticks. *)
Definition ascending (ts : list Z) : Prop := StronglySorted Z.lt ts.

(* ===================================================================== *)
(** ** Auxiliary notions for the further properties *)
(* ===================================================================== *)

(** The value of [avg] once the loop has appended [out], starting from
    [start]. *)
Definition last_avg (start : option Z) (out : list Z) : option Z :=
  last (map Some out) start.

(** The recurrence of the docstring, [avg += (x - avg) >> alpha_sh], in
    exact integers (no 64-bit reduction): the reference that the 64-bit
    loop is compared with. *)
Definition ideal_update (alpha_sh : Z) (avg : option Z) (x : Z) : Z :=
  match avg with
  | None => x
  | Some a => a + (x - a) / 2 ^ alpha_sh
  end.

Fixpoint ideal_loop (alpha_sh : Z) (avg : option Z) (xs : list Z) : list Z :=
  match xs with
  | [] => []
  | x :: rest =>
      let avg' := ideal_update alpha_sh avg x in
      avg' :: ideal_loop alpha_sh (Some avg') rest
  end.

Definition ideal_ema (xs : list Z) (alpha_sh : Z) : list Z :=
  ideal_loop alpha_sh None xs.

(** Every character of [s] satisfies [p]. *)
Fixpoint all_chars (p : ascii -> bool) (s : string) : bool :=
  match s with
  | EmptyString => true
  | String c s' => p c && all_chars p s'
  end.

(** [s] does not begin with a character satisfying [p]. *)
Definition not_headed_by (p : ascii -> bool) (s : string) : bool :=
  match s with
  | EmptyString => true
  | String c _ => negb (p c)
  end.

(** A signal of the signed three-way domain. *)
Definition is_signal (s : Z) : Prop := s = BUY \/ s = SELL \/ s = HOLD.

(** visualize_results.py, [plot_hw_results], line 55: the decoding of the
    2-bit code used for the plot,
    [1 if sig == 1 else (-1 if sig == 3 else 0)]. *)
Definition plot_decode (sig : Z) : Z :=
  if sig =? 1 then 1 else (if sig =? 3 then -1 else 0).

(* ===================================================================== *)
(** ** 64-bit arithmetic facts *)
(* ===================================================================== *)

Module Int64Facts.
Import Int64.

Lemma wrap_in_range z : in_range z -> wrap z = z.
Proof.
  unfold in_range, wrap, min_int, max_int. intros H.
  rewrite Z.mod_small; lia.
Qed.

Lemma wrap_bounds z : in_range (wrap z).
Proof.
  unfold in_range, wrap, min_int, max_int.
  pose proof (Z.mod_pos_bound (z + 2 ^ 63) (2 ^ 64) ltac:(lia)). lia.
Qed.

Lemma sub_exact a b : in_range (a - b) -> sub a b = a - b.
Proof. apply wrap_in_range. Qed.

Lemma add_exact a b : in_range (a + b) -> add a b = a + b.
Proof. apply wrap_in_range. Qed.

(** On a 64-bit value the shift is the floor division by [2 ^ n], also
    for shift counts at or beyond the width. *)
Lemma rshift_floor a n : in_range a -> 0 <= n -> rshift a n = a / 2 ^ n.
Proof.
  unfold in_range, rshift, min_int, max_int. intros Ha Hn.
  destruct (Z.ltb_spec n 64) as [Hlt | Hge].
  - apply Z.shiftr_div_pow2; assumption.
  - assert (Hpow : 2 ^ 64 <= 2 ^ n) by (apply Z.pow_le_mono_r; lia).
    destruct (Z.ltb_spec a 0) as [Hneg | Hpos].
    + apply Z.div_unique with (r := a + 2 ^ n); lia.
    + symmetry. apply Z.div_small. lia.
Qed.

Lemma pow2_pos n : 0 <= n -> 0 < 2 ^ n.
Proof. intros. apply Z.pow_pos_nonneg; lia. Qed.

Lemma floor_div_nonneg d n : 0 <= n -> 0 <= d -> 0 <= d / 2 ^ n <= d.
Proof.
  intros Hn Hd. pose proof (pow2_pos n Hn) as Hp. split.
  - apply Z.div_pos; lia.
  - pose proof (Z.mul_div_le d (2 ^ n) Hp).
    assert (0 <= d / 2 ^ n) by (apply Z.div_pos; lia). nia.
Qed.

Lemma floor_div_neg d n : 0 <= n -> d < 0 -> d <= d / 2 ^ n <= -1.
Proof.
  intros Hn Hd. pose proof (pow2_pos n Hn) as Hp.
  pose proof (Z.mod_pos_bound d (2 ^ n) Hp).
  pose proof (Z.div_mod d (2 ^ n) ltac:(lia)).
  split; nia.
Qed.

(** Floor against truncation on a negative dividend. *)
Lemma floor_vs_trunc d p :
  0 < p -> d < 0 ->
  d / p <= Z.quot d p /\ (d mod p <> 0 -> d / p = Z.quot d p - 1).
Proof.
  intros Hp Hd.
  pose proof (Z.mod_pos_bound d p Hp).
  pose proof (Z.div_mod d p ltac:(lia)).
  pose proof (Z.quot_rem d p ltac:(lia)).
  pose proof (Z.rem_bound_pos_neg d p ltac:(lia) ltac:(lia)).
  assert (Hcases : d / p = Z.quot d p \/ d / p = Z.quot d p - 1) by nia.
  split; [lia|]. intros Hr. destruct Hcases as [E | E]; [|exact E].
  exfalso. nia.
Qed.

End Int64Facts.

(* ===================================================================== *)
(** ** Properties of [ema_q16] *)
(* ===================================================================== *)

Section EmaLoop.

Variable alpha_sh : Z.
Hypothesis alpha_sh_nonneg : 0 <= alpha_sh.

Import Int64 Int64Facts.

(** While the difference [x - a] fits in 64 bits, one update is exact
    integer arithmetic. *)
Lemma ema_update_exact a x :
  in_range a -> in_range x -> in_range (x - a) ->
  ema_update alpha_sh (Some a) x = a + (x - a) / 2 ^ alpha_sh.
Proof.
  intros Ha Hx Hd. cbn [ema_update].
  rewrite (sub_exact x a Hd), (rshift_floor _ _ Hd alpha_sh_nonneg).
  apply add_exact.
  unfold in_range, min_int, max_int in *.
  destruct (Z_lt_le_dec (x - a) 0) as [Hneg | Hpos].
  - pose proof (floor_div_neg (x - a) alpha_sh alpha_sh_nonneg Hneg). lia.
  - pose proof (floor_div_nonneg (x - a) alpha_sh alpha_sh_nonneg Hpos). lia.
Qed.

(** ... and lands between the old average and the new sample. *)
Lemma ema_update_between a x :
  in_range a -> in_range x -> in_range (x - a) ->
  Z.min a x <= ema_update alpha_sh (Some a) x <= Z.max a x.
Proof.
  intros Ha Hx Hd. rewrite (ema_update_exact a x Ha Hx Hd).
  destruct (Z_lt_le_dec (x - a) 0) as [Hneg | Hpos].
  - pose proof (floor_div_neg (x - a) alpha_sh alpha_sh_nonneg Hneg). lia.
  - pose proof (floor_div_nonneg (x - a) alpha_sh alpha_sh_nonneg Hpos). lia.
Qed.

Lemma ema_loop_length st xs :
  List.length (ema_loop alpha_sh st xs) = List.length xs.
Proof.
  revert st. induction xs as [| x xs IH]; intros st; cbn; [reflexivity|].
  now rewrite IH.
Qed.

(** The loop is causal: a prefix of the output depends on the same prefix
    of the input only. *)
Lemma ema_loop_firstn k st xs :
  firstn k (ema_loop alpha_sh st xs) = ema_loop alpha_sh st (firstn k xs).
Proof.
  revert st xs. induction k as [| k IH]; intros st [| x xs]; cbn; try reflexivity.
  now rewrite IH.
Qed.

Variables lo hi : Z.
Hypothesis lo_range : in_range lo.
Hypothesis hi_range : in_range hi.
Hypothesis spread : hi - lo <= max_int.

Lemma ema_loop_inside xs :
  forall a, within lo hi a -> Forall (within lo hi) xs ->
            Forall (within lo hi) (ema_loop alpha_sh (Some a) xs).
Proof.
  induction xs as [| x xs IH]; intros a Ha Hxs; cbn [ema_loop]; [constructor|].
  inversion Hxs as [| ? ? Hx Hrest]; subst.
  assert (Hstep : within lo hi (ema_update alpha_sh (Some a) x)).
  { unfold within, in_range, min_int, max_int in *.
    pose proof (ema_update_between a x) as Hb.
    unfold in_range, min_int, max_int in Hb.
    specialize (Hb ltac:(lia) ltac:(lia) ltac:(lia)). lia. }
  constructor; [exact Hstep | apply IH; assumption].
Qed.

Lemma ema_q16_inside xs :
  Forall (within lo hi) xs -> Forall (within lo hi) (ema_q16 xs alpha_sh).
Proof.
  unfold ema_q16. destruct xs as [| x xs]; intros H; cbn [ema_loop ema_update].
  - constructor.
  - inversion H; subst. constructor; [assumption|].
    apply ema_loop_inside; assumption.
Qed.

End EmaLoop.

(** [lo_of] and [hi_of] are attained and bound every element. *)
Lemma fold_min_in d xs : In (fold_right Z.min d xs) (d :: xs).
Proof.
  induction xs as [| x xs IH]; cbn [fold_right]; [now left|].
  destruct (Z.min_spec x (fold_right Z.min d xs)) as [[_ E] | [_ E]]; rewrite E.
  - right. now left.
  - destruct IH as [IH | IH]; [now left | right; now right].
Qed.

Lemma fold_max_in d xs : In (fold_right Z.max d xs) (d :: xs).
Proof.
  induction xs as [| x xs IH]; cbn [fold_right]; [now left|].
  destruct (Z.max_spec x (fold_right Z.max d xs)) as [[_ E] | [_ E]]; rewrite E.
  - destruct IH as [IH | IH]; [now left | right; now right].
  - right. now left.
Qed.

Lemma fold_min_le d xs x : In x xs -> fold_right Z.min d xs <= x.
Proof.
  induction xs as [| y xs IH]; cbn; [tauto|].
  intros [-> | H]; [lia | specialize (IH H); lia].
Qed.

Lemma fold_max_ge d xs x : In x xs -> x <= fold_right Z.max d xs.
Proof.
  induction xs as [| y xs IH]; cbn; [tauto|].
  intros [-> | H]; [lia | specialize (IH H); lia].
Qed.

Lemma lo_of_in xs : xs <> [] -> In (lo_of xs) xs.
Proof.
  destruct xs as [| x xs]; [congruence|]. intros _. unfold lo_of. cbn [hd].
  destruct (fold_min_in x (x :: xs)) as [E | H]; [rewrite <- E; now left | exact H].
Qed.

Lemma hi_of_in xs : xs <> [] -> In (hi_of xs) xs.
Proof.
  destruct xs as [| x xs]; [congruence|]. intros _. unfold hi_of. cbn [hd].
  destruct (fold_max_in x (x :: xs)) as [E | H]; [rewrite <- E; now left | exact H].
Qed.

Lemma lo_hi_bound xs : Forall (fun x => lo_of xs <= x <= hi_of xs) xs.
Proof.
  apply Forall_forall. intros x Hx. split.
  - now apply fold_min_le.
  - now apply fold_max_ge.
Qed.

Lemma firstn_In {A} k (xs : list A) x : In x (firstn k xs) -> In x xs.
Proof.
  revert xs. induction k as [| k IH]; intros [| y xs]; cbn; try tauto.
  intros [-> | H]; [now left | right; now apply IH].
Qed.

(** C1.  The update shifts arithmetically.  For 64-bit [avg] and [x] whose
    computed difference [delta = x - avg] is negative and for every shift
    count [alpha_sh >= 0]: the shifted delta is [floor (delta / 2^alpha_sh)],
    the new average is [avg] plus that floor (the 64-bit sum), the floor
    never exceeds the quotient truncated toward zero and is exactly one
    below it whenever the division is inexact; and when [x - avg] itself
    is negative and fits in 64 bits the new average is the exact integer
    [avg + floor ((x - avg) / 2^alpha_sh)]. *)
Theorem ema_update_floor_shift :
  forall alpha_sh avg x,
    0 <= alpha_sh ->
    Int64.in_range avg -> Int64.in_range x ->
    Int64.sub x avg < 0 ->
    let delta := Int64.sub x avg in
    Int64.rshift delta alpha_sh = delta / 2 ^ alpha_sh
    /\ ema_update alpha_sh (Some avg) x = Int64.add avg (delta / 2 ^ alpha_sh)
    /\ Int64.rshift delta alpha_sh <= Z.quot delta (2 ^ alpha_sh)
    /\ (delta mod 2 ^ alpha_sh <> 0 ->
        Int64.rshift delta alpha_sh = Z.quot delta (2 ^ alpha_sh) - 1)
    /\ (Int64.min_int <= x - avg < 0 ->
        ema_update alpha_sh (Some avg) x = avg + (x - avg) / 2 ^ alpha_sh).
Proof.
  intros alpha_sh avg x Hsh Havg Hx Hneg delta.
  assert (Hd : Int64.in_range delta) by apply Int64Facts.wrap_bounds.
  pose proof (Int64Facts.rshift_floor delta alpha_sh Hd Hsh) as Hfloor.
  pose proof (Int64Facts.floor_vs_trunc delta (2 ^ alpha_sh)
                (Int64Facts.pow2_pos alpha_sh Hsh) Hneg) as [Hle Hstrict].
  repeat split.
  - exact Hfloor.
  - cbn [ema_update]. fold delta. now rewrite Hfloor.
  - rewrite Hfloor. exact Hle.
  - intros Hr. rewrite Hfloor. now apply Hstrict.
  - intros Hmin. apply ema_update_exact; try assumption.
    unfold Int64.in_range, Int64.min_int, Int64.max_int in *. lia.
Qed.

(** The case of the specification: shift 1, avg = 100.0, x = 90.0 in
    Q16.16. *)
Lemma ema_update_floor_shift_witness :
  Int64.sub (90 * 65536) (100 * 65536) = -655360
  /\ Int64.rshift (-655360) 1 = -327680
  /\ Int64.rshift (-655360) 1 <> -327679
  /\ ema_update 1 (Some (100 * 65536)) (90 * 65536) = 100 * 65536 - 327680.
Proof.
  pose proof (ema_update_floor_shift 1 (100 * 65536) (90 * 65536)) as H.
  assert (H0 : 0 <= 1) by lia.
  assert (H1 : Int64.in_range (100 * 65536))
    by (unfold Int64.in_range, Int64.min_int, Int64.max_int; lia).
  assert (H2 : Int64.in_range (90 * 65536))
    by (unfold Int64.in_range, Int64.min_int, Int64.max_int; lia).
  assert (H3 : Int64.sub (90 * 65536) (100 * 65536) < 0) by (vm_compute; reflexivity).
  specialize (H H0 H1 H2 H3).
  destruct H as (Hs & _ & _ & _ & Hex).
  assert (E : Int64.sub (90 * 65536) (100 * 65536) = -655360) by (vm_compute; reflexivity).
  rewrite E in Hs.
  split; [exact E|]. split; [rewrite Hs; reflexivity|].
  split; [rewrite Hs; discriminate|].
  rewrite Hex; [reflexivity | unfold Int64.min_int; lia].
Defined.

(** A shift that is inexact, where floor and truncation part: delta = -3. *)
Example ema_update_rounds_down :
  ema_q16 [10; 7] 1 = [10; 8] /\ 10 + Z.quot (7 - 10) 2 = 9.
Proof. split; reflexivity. Qed.

(** C3.  On a constant input the average is the constant from the first
    sample on: the first update returns [c], every further update of a
    state [c] with input [c] returns [c], so the outputs for [n] samples
    are [n] copies of [c]; for every 64-bit [c] and every shift count
    [alpha_sh >= 0]. *)
Theorem ema_constant_input :
  forall alpha_sh c n,
    0 <= alpha_sh -> Int64.in_range c ->
    ema_update alpha_sh None c = c
    /\ ema_update alpha_sh (Some c) c = c
    /\ ema_q16 (repeat c n) alpha_sh = repeat c n.
Proof.
  intros alpha_sh c n Hsh Hc.
  assert (Hstep : ema_update alpha_sh (Some c) c = c).
  { rewrite ema_update_exact; try assumption.
    - rewrite Z.sub_diag, Z.div_0_l; [lia|].
      pose proof (Int64Facts.pow2_pos alpha_sh Hsh). lia.
    - rewrite Z.sub_diag.
      unfold Int64.in_range, Int64.min_int, Int64.max_int. lia. }
  split; [reflexivity|]. split; [exact Hstep|].
  unfold ema_q16. destruct n as [| n]; [reflexivity|].
  cbn [repeat ema_loop ema_update]. f_equal.
  induction n as [| n IH]; [reflexivity|].
  cbn [repeat ema_loop]. rewrite Hstep. f_equal. exact IH.
Qed.

Lemma ema_constant_input_witness :
  ema_update 6 None (100 * 65536) = 100 * 65536
  /\ ema_update 6 (Some (100 * 65536)) (100 * 65536) = 100 * 65536
  /\ ema_q16 (repeat (100 * 65536) 5) 6 = repeat (100 * 65536) 5.
Proof.
  apply (ema_constant_input 6 (100 * 65536) 5).
  - lia.
  - unfold Int64.in_range, Int64.min_int, Int64.max_int. lia.
Defined.

(** C10 as stated fails on 64-bit cells: with prices [-2^63] and [2^62]
    and shift 1 the subtraction wraps and the second average is
    [2^63 - 2^61], above both inputs. *)
Lemma ema_envelope_overflow :
  let prices := [- 2 ^ 63; 2 ^ 62] in
  Forall Int64.in_range prices
  /\ nth_error (ema_q16 prices 1) 1 = Some (2 ^ 63 - 2 ^ 61)
  /\ ~ (lo_of prices <= 2 ^ 63 - 2 ^ 61 <= hi_of prices).
Proof.
  cbv zeta. split; [|split].
  - repeat constructor; unfold Int64.in_range, Int64.min_int, Int64.max_int; lia.
  - vm_compute. reflexivity.
  - vm_compute. intros [_ H]. apply H. reflexivity.
Qed.

(** C10, amended.  For 64-bit prices whose pairwise differences fit in 64
    bits and for every shift count [alpha_sh >= 0], the [k]-th running
    average lies between the least and the greatest of the first [k + 1]
    prices. *)
Theorem ema_within_envelope :
  forall alpha_sh prices,
    0 <= alpha_sh ->
    Forall Int64.in_range prices ->
    (forall x y, In x prices -> In y prices -> x - y <= Int64.max_int) ->
    forall k a,
      nth_error (ema_q16 prices alpha_sh) k = Some a ->
      lo_of (firstn (S k) prices) <= a <= hi_of (firstn (S k) prices).
Proof.
  intros alpha_sh prices Hsh Hrange Hspread k a Hk.
  set (p := firstn (S k) prices).
  assert (Hpk : nth_error (ema_q16 p alpha_sh) k = Some a).
  { unfold ema_q16, p. rewrite <- ema_loop_firstn, nth_error_firstn.
    destruct (Nat.ltb_spec k (S k)); [exact Hk | lia]. }
  assert (Hne : p <> []).
  { intros E. rewrite E in Hpk. destruct k; discriminate. }
  assert (Hsub : forall x, In x p -> In x prices)
    by (intros x; apply firstn_In).
  pose proof (lo_of_in p Hne) as Hlo. pose proof (hi_of_in p Hne) as Hhi.
  rewrite Forall_forall in Hrange.
  pose proof (ema_q16_inside alpha_sh Hsh (lo_of p) (hi_of p)
                (Hrange _ (Hsub _ Hlo)) (Hrange _ (Hsub _ Hhi))
                (Hspread _ _ (Hsub _ Hhi) (Hsub _ Hlo)) p (lo_hi_bound p)) as Hin.
  rewrite Forall_forall in Hin. apply Hin.
  eapply nth_error_In. exact Hpk.
Qed.

Lemma ema_within_envelope_witness :
  lo_of (firstn 2 [100 * 65536; 90 * 65536; 95 * 65536]) <= 95 * 65536
  <= hi_of (firstn 2 [100 * 65536; 90 * 65536; 95 * 65536]).
Proof.
  apply (ema_within_envelope 1 [100 * 65536; 90 * 65536; 95 * 65536]) with (k := 1%nat).
  - lia.
  - repeat constructor; unfold Int64.in_range, Int64.min_int, Int64.max_int; lia.
  - intros x y Hx Hy. unfold Int64.max_int. cbn in Hx, Hy.
    destruct Hx as [<- | [<- | [<- | []]]]; destruct Hy as [<- | [<- | [<- | []]]]; lia.
  - reflexivity.
Defined.

(* ===================================================================== *)
(** ** The signal classifier and the software trace *)
(* ===================================================================== *)

Lemma classify_cases f s :
  (s < f /\ classify f s = BUY)
  \/ (f < s /\ classify f s = SELL)
  \/ (f = s /\ classify f s = HOLD).
Proof.
  unfold classify, BUY, SELL, HOLD.
  destruct (Z.gtb_spec f s); [left; split; [lia | reflexivity]|].
  destruct (Z.ltb_spec f s); [right; left; split; [lia | reflexivity]|].
  right; right; split; [lia | reflexivity].
Qed.

(** C4.  [classify] compares exactly: BUY when [fast > slow], SELL when
    [fast < slow], HOLD when they are equal; so swapping two different
    arguments negates the signal, and equal arguments give HOLD. *)
Theorem classify_antisymmetric :
  forall a b,
    (a > b -> classify a b = BUY)
    /\ (a < b -> classify a b = SELL)
    /\ (a = b -> classify a b = HOLD)
    /\ (a <> b -> classify a b = - classify b a)
    /\ classify a a = HOLD.
Proof.
  intros a b.
  destruct (classify_cases a b) as [[H E] | [[H E] | [H E]]];
    destruct (classify_cases b a) as [[H' E'] | [[H' E'] | [H' E']]];
    destruct (classify_cases a a) as [[H'' E''] | [[H'' E''] | [H'' E'']]];
    try lia; rewrite E, E'; unfold BUY, SELL, HOLD in *;
    repeat split; intros; try lia; try assumption.
Qed.

Lemma classify_antisymmetric_witness :
  classify 6553601 6553600 = BUY
  /\ classify 6553600 6553601 = SELL
  /\ classify 6553601 6553600 = - classify 6553600 6553601
  /\ classify 6553601 6553601 = HOLD.
Proof.
  destruct (classify_antisymmetric 6553601 6553600) as (Hgt & _ & _ & Hne & _).
  destruct (classify_antisymmetric 6553600 6553601) as (_ & Hlt & _ & _ & _).
  destruct (classify_antisymmetric 6553601 6553601) as (_ & _ & _ & _ & Heq).
  split; [apply Hgt; lia|]. split; [apply Hlt; lia|].
  split; [apply Hne; lia | exact Heq].
Defined.

Lemma range1_length n : List.length (range1 n) = n.
Proof. unfold range1. now rewrite length_map, length_seq. Qed.

Lemma sw_signals_length fast_sh slow_sh prices :
  List.length (sw_signals fast_sh slow_sh prices) = List.length prices.
Proof.
  unfold sw_signals, ema_q16.
  rewrite length_map, length_combine.
  assert (E : forall sh st, List.length (ema_loop sh st prices) = List.length prices).
  { intros sh. induction prices as [| x xs IH]; intros st; cbn; [reflexivity|].
    now rewrite IH. }
  rewrite !E. apply Nat.min_id.
Qed.

Lemma map_fst_combine {A B} (xs : list A) (ys : list B) :
  List.length xs = List.length ys -> map fst (combine xs ys) = xs.
Proof.
  revert ys. induction xs as [| x xs IH]; intros [| y ys] Hlen;
    try discriminate; [reflexivity|].
  cbn. f_equal. apply IH. cbn in Hlen. lia.
Qed.

Lemma range1_In t n : In t (range1 n) <-> 1 <= t <= Z.of_nat n.
Proof.
  unfold range1. rewrite in_map_iff. split.
  - intros (k & <- & Hk). apply in_seq in Hk. lia.
  - intros H. exists (Z.to_nat t). split; [lia|]. apply in_seq. lia.
Qed.

Lemma range1_NoDup n : NoDup (range1 n).
Proof.
  unfold range1. apply NoDup_map_NoDup_ForallPairs; [|apply seq_NoDup].
  intros x y _ _ H. now apply Nat2Z.inj.
Qed.

Lemma range1_nth n k :
  (k < n)%nat -> nth_error (range1 n) k = Some (Z.of_nat k + 1).
Proof.
  intros H. unfold range1. rewrite nth_error_map, nth_error_seq.
  destruct (Nat.ltb_spec k n) as [_ | Hge]; [|lia].
  cbn [option_map]. f_equal. lia.
Qed.

(** C5.  For [N] prices the software frame has [N] rows and its tick
    column is [1, ..., N], whatever the two shift counts: the row at
    position [k] (counted from 0) carries tick [k + 1], a tick occurs in
    the column exactly when it lies between 1 and [N], and no tick
    occurs twice. *)
Theorem sw_frame_ticks :
  forall fast_sh slow_sh prices,
    List.length (sw_frame_with fast_sh slow_sh prices) = List.length prices
    /\ frame_ticks (sw_frame_with fast_sh slow_sh prices)
       = range1 (List.length prices)
    /\ List.length (sw_frame prices) = List.length prices
    /\ frame_ticks (sw_frame prices) = range1 (List.length prices)
    /\ (forall k, (k < List.length prices)%nat ->
          nth_error (frame_ticks (sw_frame_with fast_sh slow_sh prices)) k
          = Some (Z.of_nat k + 1))
    /\ (forall t, In t (frame_ticks (sw_frame_with fast_sh slow_sh prices))
                  <-> 1 <= t <= Z.of_nat (List.length prices))
    /\ NoDup (frame_ticks (sw_frame_with fast_sh slow_sh prices))
    /\ (forall k, (k < List.length prices)%nat ->
          nth_error (frame_ticks (sw_frame prices)) k = Some (Z.of_nat k + 1))
    /\ (forall t, In t (frame_ticks (sw_frame prices))
                  <-> 1 <= t <= Z.of_nat (List.length prices))
    /\ NoDup (frame_ticks (sw_frame prices)).
Proof.
  assert (H : forall fast_sh slow_sh prices,
             List.length (sw_frame_with fast_sh slow_sh prices) = List.length prices
             /\ frame_ticks (sw_frame_with fast_sh slow_sh prices)
                = range1 (List.length prices)).
  { intros fast_sh slow_sh prices. unfold sw_frame_with, frame_ticks.
    pose proof (sw_signals_length fast_sh slow_sh prices) as E.
    split.
    - rewrite length_combine, range1_length, E. apply Nat.min_id.
    - rewrite map_fst_combine; [now rewrite E|].
      rewrite range1_length. reflexivity. }
  assert (K : forall fast_sh slow_sh prices,
             (forall k, (k < List.length prices)%nat ->
                nth_error (frame_ticks (sw_frame_with fast_sh slow_sh prices)) k
                = Some (Z.of_nat k + 1))
             /\ (forall t, In t (frame_ticks (sw_frame_with fast_sh slow_sh prices))
                           <-> 1 <= t <= Z.of_nat (List.length prices))
             /\ NoDup (frame_ticks (sw_frame_with fast_sh slow_sh prices))).
  { intros fast_sh slow_sh prices.
    destruct (H fast_sh slow_sh prices) as [_ E]. rewrite E.
    split; [|split].
    - intros k Hk. now apply range1_nth.
    - intros t. apply range1_In.
    - apply range1_NoDup. }
  intros fast_sh slow_sh prices.
  destruct (H fast_sh slow_sh prices) as [H1 H2].
  destruct (H FAST_SH SLOW_SH prices) as [H3 H4].
  destruct (K fast_sh slow_sh prices) as (K1 & K2 & K3).
  destruct (K FAST_SH SLOW_SH prices) as (K4 & K5 & K6).
  exact (conj H1 (conj H2 (conj H3 (conj H4 (conj K1 (conj K2
          (conj K3 (conj K4 (conj K5 K6))))))))).
Qed.

Lemma sw_frame_ticks_witness :
  List.length (sw_frame [6553600; 5898240; 6225920]) = 3%nat
  /\ nth_error (frame_ticks (sw_frame [6553600; 5898240; 6225920])) 0 = Some 1
  /\ nth_error (frame_ticks (sw_frame [6553600; 5898240; 6225920])) 2 = Some 3
  /\ In 3 (frame_ticks (sw_frame [6553600; 5898240; 6225920]))
  /\ ~ In 0 (frame_ticks (sw_frame [6553600; 5898240; 6225920]))
  /\ ~ In 4 (frame_ticks (sw_frame [6553600; 5898240; 6225920])).
Proof.
  destruct (sw_frame_ticks FAST_SH SLOW_SH [6553600; 5898240; 6225920])
    as (_ & _ & Hlen & _ & _ & _ & _ & Hnth & Hin & _).
  split; [exact Hlen|].
  split; [apply (Hnth 0%nat); cbn; lia|].
  split; [apply (Hnth 2%nat); cbn; lia|].
  split; [apply Hin; cbn; lia|].
  split; intros Hbad; apply Hin in Hbad; cbn in Hbad; lia.
Defined.

Example sw_frame_three :
  sw_frame [100 * 65536; 90 * 65536; 95 * 65536] = [(1, HOLD); (2, SELL); (3, SELL)].
Proof. reflexivity. Qed.

(* ===================================================================== *)
(** ** The hardware log parser *)
(* ===================================================================== *)

Lemma hw_rows_app a b : hw_rows (a ++ b) = hw_rows a ++ hw_rows b.
Proof.
  induction a as [| l a IH]; [reflexivity|].
  cbn [app hw_rows]. destruct (parse_line l); rewrite IH; reflexivity.
Qed.

Lemma hw_rows_In row lines :
  In row (hw_rows lines) -> exists l, In l lines /\ parse_line l = Some row.
Proof.
  induction lines as [| l lines IH]; cbn [hw_rows]; [intros []|].
  destruct (parse_line l) as [r |] eqn:E.
  - intros [<- | H].
    + exists l. split; [now left | exact E].
    + destruct (IH H) as (l' & Hin & Hp). exists l'. split; [now right | exact Hp].
  - intros H. destruct (IH H) as (l' & Hin & Hp). exists l'. split; [now right | exact Hp].
Qed.

Lemma hw_rows_no_match lines :
  Forall (fun l => re_search l = None) lines -> hw_rows lines = [].
Proof.
  induction 1 as [| l lines Hl _ IH]; [reflexivity|].
  cbn [hw_rows]. unfold parse_line. rewrite Hl. exact IH.
Qed.

Lemma find_skip {A} (f : A -> bool) a b :
  (forall r, In r a -> f r = false) -> find f (a ++ b) = find f b.
Proof.
  induction a as [| x a IH]; intros H; [reflexivity|].
  cbn [app find]. rewrite (H x (or_introl eq_refl)).
  apply IH. intros r Hr. apply H. now right.
Qed.

Lemma existsb_eqb_neq t t0 seen :
  existsb (Z.eqb t0) seen = true -> existsb (Z.eqb t) seen = false -> (t0 =? t) = false.
Proof.
  intros H1 H2. apply Z.eqb_neq. intros ->. congruence.
Qed.

(** The rows that [drop_duplicates] keeps for a tick [t]: the first row
    carrying [t], unless [t] was seen before. *)
Lemma drop_dups_from_tick t rows :
  forall seen,
    filter (fun r => fst r =? t) (drop_dups_from seen rows)
    = if existsb (Z.eqb t) seen then []
      else match find (fun r => fst r =? t) rows with
           | Some r => [r]
           | None => []
           end.
Proof.
  induction rows as [| [t0 s0] rows IH]; intros seen; cbn [drop_dups_from].
  - cbn. now destruct (existsb (Z.eqb t) seen).
  - destruct (existsb (Z.eqb t0) seen) eqn:E0.
    + rewrite IH. destruct (existsb (Z.eqb t) seen) eqn:Et; [reflexivity|].
      cbn [find fst]. now rewrite (existsb_eqb_neq t t0 seen E0 Et).
    + cbn [filter find fst]. rewrite IH. cbn [existsb].
      destruct (Z.eqb_spec t0 t) as [-> | Hne].
      * rewrite Z.eqb_refl. cbn [orb]. now rewrite E0.
      * assert (Et0 : (t =? t0) = false) by (apply Z.eqb_neq; congruence).
        rewrite Et0. reflexivity.
Qed.

(** C6.  When two lines of the log match the pattern with the same tick
    [t] and no earlier line carries [t], the parsed frame has exactly one
    row for [t], holding the decoded code of the first of the two lines;
    code 1 decodes to BUY, code 3 to SELL, every other integer to HOLD. *)
Theorem read_hw_log_first_wins :
  forall pre l1 mid l2 post t g1 c1 g2 c2,
    re_search l1 = Some (g1, c1) -> int g1 = t ->
    re_search l2 = Some (g2, c2) -> int g2 = t ->
    (forall l m, In l pre -> re_search l = Some m -> int (fst m) <> t) ->
    exists hw,
      read_hw_log (Some (pre ++ l1 :: mid ++ l2 :: post)) = Return hw
      /\ filter (fun r => fst r =? t) hw = [(t, decode_signal (int c1))]
      /\ decode_signal 1 = BUY
      /\ decode_signal 3 = SELL
      /\ (forall c, c <> 1 -> c <> 3 -> decode_signal c = HOLD).
Proof.
  intros pre l1 mid l2 post t g1 c1 g2 c2 H1 Ht1 _ _ Hpre.
  eexists. split; [reflexivity|]. split; [|split; [reflexivity|split; [reflexivity|]]].
  - unfold drop_duplicates. rewrite drop_dups_from_tick. cbn [existsb].
    rewrite hw_rows_app. rewrite find_skip.
    + cbn [hw_rows]. unfold parse_line at 1. rewrite H1. cbn [fst snd find].
      rewrite Ht1, Z.eqb_refl. reflexivity.
    + intros [t' s'] Hin. cbn [fst]. apply Z.eqb_neq. intros ->.
      destruct (hw_rows_In _ _ Hin) as (l & Hl & Hp).
      unfold parse_line in Hp. destruct (re_search l) as [m |] eqn:Em; [|discriminate].
      injection Hp as Hm _. exact (Hpre l m Hl Em Hm).
  - intros c Hc1 Hc3. unfold decode_signal, HOLD.
    destruct (Z.eqb_spec c 3); [contradiction|].
    destruct (Z.eqb_spec c 1); [contradiction | reflexivity].
Qed.

Local Open Scope string_scope.
Local Open Scope Z_scope.

Lemma read_hw_log_first_wins_witness :
  exists hw,
    read_hw_log (Some ["# run 1";
                       "tick 5 -> signal=1  fast=6553600 slow=6553500";
                       "tick 6 -> signal=0";
                       "tick 5 -> signal=3"]) = Return hw
    /\ filter (fun r => fst r =? 5) hw = [(5, decode_signal (int "1"))]
    /\ decode_signal 1 = BUY
    /\ decode_signal 3 = SELL
    /\ (forall c, c <> 1 -> c <> 3 -> decode_signal c = HOLD).
Proof.
  apply (read_hw_log_first_wins
           ["# run 1"] "tick 5 -> signal=1  fast=6553600 slow=6553500"
           ["tick 6 -> signal=0"] "tick 5 -> signal=3" [] 5 "5" "1" "5" "3").
  - reflexivity.
  - reflexivity.
  - reflexivity.
  - reflexivity.
  - intros l m [<- | []] Hm. vm_compute in Hm. discriminate.
Defined.

Example read_hw_log_duplicate_tick :
  read_hw_log (Some ["tick 5 -> signal=1"; "tick 5 -> signal=3"]) = Return [(5, BUY)]
  /\ read_hw_log (Some ["tick 5 -> signal=3"; "tick 5 -> signal=1"]) = Return [(5, SELL)]
  /\ read_hw_log (Some ["tick 5 -> signal=2"; "tick 5 -> signal=1"]) = Return [(5, HOLD)].
Proof. repeat split; reflexivity. Qed.

(** C8 as stated fails: a log without any record parses to the empty
    frame without a report of its own, and the run ends exactly as it does
    for a log whose records share no tick with the software trace. *)
Lemma empty_log_not_distinct :
  read_hw_log (Some ["VCD info: dumpfile dump.vcd opened for output."]) = Return []
  /\ main [6553600] (Some ["VCD info: dumpfile dump.vcd opened for output."]) = NoOverlap
  /\ main [6553600] (Some ["tick 9 -> signal=1"])
     = main [6553600] (Some ["VCD info: dumpfile dump.vcd opened for output."]).
Proof. repeat split; reflexivity. Qed.

Lemma merge_inner_nil_l sw : merge_inner [] sw = [].
Proof. reflexivity. Qed.

Lemma merge_inner_nil_r hw : merge_inner hw [] = [].
Proof. induction hw as [| l hw IH]; [reflexivity | exact IH]. Qed.

(** C8, amended.  A non-empty log none of whose lines matches the pattern
    parses to the empty frame, without error; [main] then ends with the
    no-overlap message, whatever the prices. *)
Theorem read_hw_log_no_records :
  forall lines prices,
    lines <> [] ->
    Forall (fun l => re_search l = None) lines ->
    read_hw_log (Some lines) = Return []
    /\ main prices (Some lines) = NoOverlap.
Proof.
  intros lines prices _ Hnone.
  unfold main, read_hw_log. rewrite (hw_rows_no_match lines Hnone).
  split; reflexivity.
Qed.

Lemma read_hw_log_no_records_witness :
  read_hw_log (Some ["VCD info: dumpfile dump.vcd opened for output."; "done"]) = Return []
  /\ main [6553600; 6553700]
          (Some ["VCD info: dumpfile dump.vcd opened for output."; "done"]) = NoOverlap.
Proof.
  apply read_hw_log_no_records.
  - discriminate.
  - repeat constructor.
Defined.

(* ===================================================================== *)
(** ** Merge and compare *)
(* ===================================================================== *)

(** C2.  On hw = {1:BUY, 2:SELL, 3:HOLD} and sw = {2:SELL, 3:BUY, 4:HOLD}
    the comparison runs over ticks 2 and 3 only, counts 2 ticks and 1
    match (tick 2), gives a match rate of 50 percent (5000 hundredths),
    and has the single mismatch (3, HOLD, BUY). *)
Theorem compare_example :
  exists r,
    compare [(1, BUY); (2, SELL); (3, HOLD)] [(2, SELL); (3, BUY); (4, HOLD)] = Report r
    /\ map tick (merged r) = [2; 3]
    /\ ticks_compared r = 2%nat
    /\ match_count r = 1
    /\ map tick (filter (fun x => match_col x =? 1) (merged r)) = [2]
    /\ (acc r == 50)%Q
    /\ (acc_hundredths r == 5000)%Q
    /\ mismatches r = [mk_row 3 HOLD BUY].
Proof.
  eexists. split; [reflexivity|].
  repeat split; reflexivity.
Qed.

(** Rows of the merge for one left key, when the right ticks are unique. *)
Lemma filter_tick_unique t sw :
  NoDup (frame_ticks sw) ->
  map fst (filter (fun r => fst r =? t) sw)
  = if existsb (Z.eqb t) (frame_ticks sw) then [t] else [].
Proof.
  unfold frame_ticks.
  induction sw as [| [t0 s0] sw IH]; intros Hnd; [reflexivity|].
  cbn [map fst] in Hnd. inversion Hnd as [| ? ? Hnotin Hnd']; subst.
  cbn [filter map fst existsb]. rewrite (Z.eqb_sym t t0).
  destruct (Z.eqb_spec t0 t) as [-> | Hne].
  - cbn [map fst orb]. f_equal. rewrite (IH Hnd').
    destruct (existsb (Z.eqb t) (map fst sw)) eqn:E; [|reflexivity].
    exfalso. apply Hnotin. apply existsb_exists in E.
    destruct E as (x & Hx & Heq). apply Z.eqb_eq in Heq. now subst.
  - cbn [orb]. exact (IH Hnd').
Qed.

(** The tick column of the merge is the left tick column restricted to
    the ticks that the right frame has: inner join, left order. *)
Lemma merge_inner_ticks hw sw :
  NoDup (frame_ticks sw) ->
  map tick (merge_inner hw sw)
  = filter (fun t => existsb (Z.eqb t) (frame_ticks sw)) (frame_ticks hw).
Proof.
  intros Hnd. unfold merge_inner, frame_ticks at 2.
  induction hw as [| [t h] hw IH]; [reflexivity|].
  cbn [flat_map map fst snd filter]. rewrite map_app, IH, map_map. cbn [tick].
  pose proof (filter_tick_unique t sw Hnd) as Hu.
  assert (Hconst : map (fun _ : Z * Z => t) (filter (fun r => fst r =? t) sw)
                   = map fst (filter (fun r => fst r =? t) sw)).
  { apply map_ext_in. intros [t' s'] Hin. apply filter_In in Hin.
    destruct Hin as [_ Heq]. cbn [fst] in *. apply Z.eqb_eq in Heq. now subst. }
  rewrite Hconst, Hu.
  destruct (existsb (Z.eqb t) (frame_ticks sw)); reflexivity.
Qed.

Lemma ascending_filter p ts : ascending ts -> ascending (filter p ts).
Proof.
  unfold ascending. induction 1 as [| t ts Hs IH Hall]; cbn [filter]; [constructor|].
  destruct (p t); [|exact IH].
  constructor; [exact IH|].
  apply Forall_forall. intros x Hx. apply filter_In in Hx.
  rewrite Forall_forall in Hall. now apply Hall.
Qed.

Lemma ascending_map_filter (p : row -> bool) rows :
  ascending (map tick rows) -> ascending (map tick (filter p rows)).
Proof.
  unfold ascending. induction rows as [| r rows IH]; cbn [map filter]; intros H;
    [constructor|].
  apply StronglySorted_inv in H. destruct H as [Hs Hall].
  destruct (p r); [|now apply IH].
  cbn [map]. constructor; [now apply IH|].
  apply Forall_forall. intros x Hx. apply in_map_iff in Hx.
  destruct Hx as (y & <- & Hy). apply filter_In in Hy.
  rewrite Forall_forall in Hall. apply Hall. apply in_map. tauto.
Qed.

Lemma sw_frame_NoDup prices : NoDup (frame_ticks (sw_frame prices)).
Proof.
  unfold sw_frame, sw_frame_with, frame_ticks.
  rewrite map_fst_combine; [apply range1_NoDup | now rewrite range1_length].
Qed.

Lemma compare_report hw sw r :
  compare hw sw = Report r ->
  merged r = merge_inner hw sw
  /\ mismatches r = filter (fun x => match_col x =? 0) (merge_inner hw sw).
Proof.
  unfold compare. destruct (merge_inner hw sw) as [| x m]; [discriminate|].
  intros H. injection H as <-. split; reflexivity.
Qed.

Lemma existsb_eqb_In t seen : existsb (Z.eqb t) seen = true <-> In t seen.
Proof.
  rewrite existsb_exists. split.
  - intros (x & Hx & E). apply Z.eqb_eq in E. now subst.
  - intros H. exists t. split; [exact H | apply Z.eqb_refl].
Qed.

Lemma drop_dups_from_spec rows :
  forall seen,
    NoDup (frame_ticks (drop_dups_from seen rows))
    /\ (forall r, In r (drop_dups_from seen rows) -> In r rows /\ ~ In (fst r) seen)
    /\ (forall t, In t (frame_ticks rows) -> ~ In t seen ->
                  In t (frame_ticks (drop_dups_from seen rows))).
Proof.
  unfold frame_ticks.
  induction rows as [| [t0 s0] rows IH]; intros seen; cbn [drop_dups_from].
  - repeat split; try constructor; intros; contradiction.
  - destruct (existsb (Z.eqb t0) seen) eqn:E.
    + destruct (IH seen) as (Hnd & Hsub & Hall). split; [exact Hnd|]. split.
      * intros r Hr. destruct (Hsub r Hr). split; [now right | assumption].
      * intros t [<- | Ht] Hns.
        -- exfalso. apply Hns. now apply existsb_eqb_In.
        -- now apply Hall.
    + assert (Hnot : ~ In t0 seen).
      { intros Hin. apply existsb_eqb_In in Hin. congruence. }
      destruct (IH (t0 :: seen)) as (Hnd & Hsub & Hall). split; [|split].
      * cbn [map fst]. constructor; [|exact Hnd].
        intros Hin. apply in_map_iff in Hin. destruct Hin as (r & Hr & Hin).
        destruct (Hsub r Hin) as [_ Hns]. apply Hns. left. now symmetry.
      * intros r [<- | Hr]; [split; [now left | exact Hnot]|].
        destruct (Hsub r Hr) as [Hin Hns]. split; [now right|].
        intros Hs. apply Hns. now right.
      * intros t Ht Hns. cbn [map fst] in Ht |- *.
        destruct (Z.eq_dec t0 t) as [-> | Hne]; [now left|].
        right. apply Hall; [destruct Ht; [contradiction | assumption]|].
        intros [E' | Hs]; [contradiction | now apply Hns].
Qed.

(** C9 as stated fails: the merge keeps the order of the hardware frame,
    so a log that lists tick 2 before tick 1 yields the mismatches in
    that order. *)
Lemma mismatches_not_sorted :
  exists r,
    main [6553600; 6553600] (Some ["tick 2 -> signal=1"; "tick 1 -> signal=1"]) = Report r
    /\ mismatches r = [mk_row 2 BUY HOLD; mk_row 1 BUY HOLD]
    /\ ~ ascending (map tick (mismatches r)).
Proof.
  eexists. split; [reflexivity|]. split; [reflexivity|].
  cbn. intros H. apply StronglySorted_inv in H. destruct H as [_ H].
  inversion H; subst. lia.
Qed.

Lemma filter_filter_and {A} (f g : A -> bool) l :
  filter f (filter g l) = filter (fun x => g x && f x) l.
Proof.
  induction l as [| x l IH]; [reflexivity|].
  cbn [filter]. destruct (g x); cbn [filter andb]; [|exact IH].
  destruct (f x); now rewrite IH.
Qed.

(** Filtering rows with distinct ticks keeps the ticks in place: the
    ticks of the rows kept are the tick column restricted to them. *)
Lemma map_tick_filter (q : row -> bool) rows :
  NoDup (map tick rows) ->
  map tick (filter q rows)
  = filter (fun t => existsb (Z.eqb t) (map tick (filter q rows))) (map tick rows).
Proof.
  induction rows as [| x rows IH]; intros Hnd; [reflexivity|].
  cbn [map] in Hnd. inversion Hnd as [| ? ? Hnotin Hnd']; subst.
  assert (Hsub : forall t, In t (map tick (filter q rows)) -> In t (map tick rows)).
  { intros t Ht. apply in_map_iff in Ht. destruct Ht as (y & <- & Hy).
    apply filter_In in Hy. apply in_map. tauto. }
  cbn [filter map]. destruct (q x).
  - cbn [map filter existsb]. rewrite Z.eqb_refl. cbn [orb]. f_equal.
    rewrite (IH Hnd') at 1. apply filter_ext_in. intros t Ht.
    destruct (Z.eqb_spec t (tick x)) as [-> | _]; [contradiction | reflexivity].
  - cbn [filter].
    destruct (existsb (Z.eqb (tick x)) (map tick (filter q rows))) eqn:E.
    + exfalso. apply Hnotin. apply Hsub. now apply existsb_eqb_In.
    + now apply IH.
Qed.

(** C9, amended.  The mismatch records (and the whole comparison table)
    follow the order in which ticks first appear in the hardware log,
    whatever that order is: the tick column of the table is the
    de-duplicated hardware tick column restricted to the software ticks,
    and the ticks of the mismatch records are that same hardware column
    restricted to the mismatching ticks.  Hence they are in strictly
    ascending tick order whenever the first-seen order is ascending. *)
Theorem mismatches_follow_hw_order :
  forall prices lines r,
    main prices (Some lines) = Report r ->
    map tick (merged r)
    = filter (fun t => existsb (Z.eqb t) (frame_ticks (sw_frame prices)))
             (frame_ticks (drop_duplicates (hw_rows lines)))
    /\ map tick (mismatches r)
       = filter (fun t => existsb (Z.eqb t) (map tick (mismatches r)))
                (frame_ticks (drop_duplicates (hw_rows lines)))
    /\ (ascending (frame_ticks (drop_duplicates (hw_rows lines))) ->
        ascending (map tick (mismatches r)) /\ ascending (map tick (merged r))).
Proof.
  intros prices lines r Hmain.
  unfold main, read_hw_log in Hmain.
  destruct (compare_report _ _ _ Hmain) as [Hm Hmis].
  pose proof (merge_inner_ticks (drop_duplicates (hw_rows lines)) (sw_frame prices)
                (sw_frame_NoDup prices)) as Hticks.
  rewrite <- Hm in Hticks, Hmis.
  set (hw_ticks := frame_ticks (drop_duplicates (hw_rows lines))) in *.
  assert (Hnd_hw : NoDup hw_ticks).
  { unfold hw_ticks, drop_duplicates.
    now destruct (drop_dups_from_spec (hw_rows lines) []) as (Hnd & _). }
  assert (Hnd : NoDup (map tick (merged r)))
    by (rewrite Hticks; now apply NoDup_filter).
  split; [exact Hticks|]. split.
  - rewrite Hmis at 1. rewrite (map_tick_filter _ _ Hnd), <- Hmis.
    rewrite Hticks, filter_filter_and. apply filter_ext_in. intros t _.
    destruct (existsb (Z.eqb t) (map tick (mismatches r))) eqn:E;
      [|apply andb_false_r].
    rewrite andb_true_r. apply existsb_eqb_In in E.
    assert (Hin : In t (map tick (merged r))).
    { rewrite Hmis in E. apply in_map_iff in E. destruct E as (y & <- & Hy).
      apply filter_In in Hy. apply in_map. tauto. }
    rewrite Hticks in Hin. apply filter_In in Hin. tauto.
  - intros Hasc.
    assert (Hmerged : ascending (map tick (merged r)))
      by (rewrite Hticks; now apply ascending_filter).
    split; [|exact Hmerged].
    rewrite Hmis. now apply ascending_map_filter.
Qed.

(** A log that lists tick 2 before tick 1 (and tick 2 once more): the
    table and the mismatches come out as [2; 1]. *)
Lemma mismatches_follow_hw_order_witness :
  exists r,
    main [6553600; 6553600]
         (Some ["tick 2 -> signal=1"; "tick 1 -> signal=1"; "tick 2 -> signal=0"]) = Report r
    /\ map tick (merged r) = [2; 1]
    /\ map tick (mismatches r) = [2; 1].
Proof.
  eexists. split; [reflexivity|].
  pose proof (mismatches_follow_hw_order
                [6553600; 6553600]
                ["tick 2 -> signal=1"; "tick 1 -> signal=1"; "tick 2 -> signal=0"]
                _ eq_refl) as (H1 & H2 & _).
  split.
  - exact (eq_trans H1 eq_refl).
  - exact (eq_trans H2 eq_refl).
Defined.

(** C7 as stated fails: on an empty price sequence the software frame is
    the empty frame, no error is raised, and the run ends exactly as it
    does for prices whose ticks miss those of the log. *)
Lemma empty_prices_not_an_error :
  sw_frame [] = []
  /\ main [] (Some ["tick 1 -> signal=1"]) = NoOverlap
  /\ main [] (Some ["tick 1 -> signal=1"]) = main [6553600] (Some ["tick 2 -> signal=1"]).
Proof. repeat split; reflexivity. Qed.

(** C7, amended.  On an empty price sequence the software trace is the
    empty frame; with a readable log, whatever its content, [main] ends
    with the no-overlap message, and with a missing log it exits with
    status 1. *)
Theorem empty_prices_no_overlap :
  forall lines,
    sw_frame [] = []
    /\ List.length (sw_frame []) = 0%nat
    /\ main [] (Some lines) = NoOverlap
    /\ main [] None = LogNotFound 1.
Proof.
  intros lines. repeat split.
  unfold main, read_hw_log, compare. cbn [sw_frame].
  change (sw_frame []) with (@nil (Z * Z)).
  now rewrite merge_inner_nil_r.
Qed.

(* ===================================================================== *)
(** ** Further properties of [ema_q16] *)
(* ===================================================================== *)

Local Open Scope list_scope.

Lemma wrap_add_l a b : Int64.wrap (Int64.wrap a + b) = Int64.wrap (a + b).
Proof.
  unfold Int64.wrap.
  replace ((a + 2 ^ 63) mod 2 ^ 64 - 2 ^ 63 + b + 2 ^ 63)
    with ((a + 2 ^ 63) mod 2 ^ 64 + b) by lia.
  rewrite Zplus_mod_idemp_l. f_equal. f_equal. lia.
Qed.

Lemma wrap_add_r a b : Int64.wrap (a + Int64.wrap b) = Int64.wrap (a + b).
Proof. rewrite Z.add_comm, wrap_add_l. f_equal. lia. Qed.

Lemma wrap_sub_l a b : Int64.wrap (Int64.wrap a - b) = Int64.wrap (a - b).
Proof. unfold Z.sub. apply wrap_add_l. Qed.

Lemma wrap_sub_r a b : Int64.wrap (a - Int64.wrap b) = Int64.wrap (a - b).
Proof.
  unfold Int64.wrap.
  assert (Hp : 2 ^ 64 = 2 * 2 ^ 63) by reflexivity.
  replace (a - ((b + 2 ^ 63) mod 2 ^ 64 - 2 ^ 63) + 2 ^ 63)
    with (a + 2 ^ 64 - (b + 2 ^ 63) mod 2 ^ 64) by lia.
  rewrite Zminus_mod_idemp_r. f_equal. f_equal. lia.
Qed.

Lemma last_cons_default {A} (l : list A) :
  forall a d, last (a :: l) d = last l a.
Proof.
  induction l as [| b l IH]; intros a d; [reflexivity|].
  change (last (a :: b :: l) d) with (last (b :: l) d).
  now rewrite (IH b d), (IH b a).
Qed.

Lemma ema_loop_app alpha_sh xs ys :
  forall st,
    ema_loop alpha_sh st (xs ++ ys)
    = ema_loop alpha_sh st xs
      ++ ema_loop alpha_sh (last_avg st (ema_loop alpha_sh st xs)) ys.
Proof.
  unfold last_avg.
  induction xs as [| x xs IH]; intros st; [reflexivity|].
  cbn [app ema_loop]. rewrite IH. cbn [app map]. f_equal. f_equal. f_equal.
  symmetry. apply last_cons_default.
Qed.

(** X1.  [ema_q16] is an online filter: it returns one average per
    price, and the averages of [xs ++ ys] are those of [xs] followed by
    the run over [ys] resumed from the last average of [xs]; so later
    prices never change earlier averages. *)
Theorem ema_q16_app :
  forall alpha_sh xs ys,
    List.length (ema_q16 xs alpha_sh) = List.length xs
    /\ ema_q16 (xs ++ ys) alpha_sh
       = ema_q16 xs alpha_sh
         ++ ema_loop alpha_sh (last_avg None (ema_q16 xs alpha_sh)) ys
    /\ firstn (List.length xs) (ema_q16 (xs ++ ys) alpha_sh) = ema_q16 xs alpha_sh.
Proof.
  intros alpha_sh xs ys.
  assert (Hlen : List.length (ema_q16 xs alpha_sh) = List.length xs).
  { unfold ema_q16. generalize (@None Z).
    induction xs as [| x xs IH]; intros st; cbn; [reflexivity|]. now rewrite IH. }
  split; [exact Hlen|]. split.
  - apply ema_loop_app.
  - unfold ema_q16 in *. rewrite ema_loop_app, <- Hlen.
    rewrite firstn_app, Nat.sub_diag, firstn_all. cbn [firstn]. apply app_nil_r.
Qed.

(** X2.  With shift 0 the filter is the identity on 64-bit prices: each
    average is the price of its tick, also where [x - avg] wraps. *)
Theorem ema_q16_shift_zero :
  forall prices,
    Forall Int64.in_range prices -> ema_q16 prices 0 = prices.
Proof.
  intros prices H. unfold ema_q16.
  destruct H as [| x xs Hx Hxs]; [reflexivity|].
  cbn [ema_loop ema_update]. f_equal.
  revert x Hx. induction Hxs as [| y ys Hy Hys IH]; intros x Hx; [reflexivity|].
  cbn [ema_loop].
  assert (E : ema_update 0 (Some x) y = y).
  { cbn [ema_update]. unfold Int64.add, Int64.sub, Int64.rshift.
    cbn [Z.ltb Z.compare]. rewrite Z.shiftr_0_r, wrap_add_r.
    replace (x + (y - x)) with y by lia.
    now apply Int64Facts.wrap_in_range. }
  rewrite E. f_equal. now apply IH.
Qed.

Lemma ema_q16_shift_zero_witness :
  ema_q16 [- 2 ^ 63; 2 ^ 63 - 1; 0] 0 = [- 2 ^ 63; 2 ^ 63 - 1; 0].
Proof.
  apply ema_q16_shift_zero.
  repeat constructor; unfold Int64.in_range, Int64.min_int, Int64.max_int; lia.
Defined.

(** X3.  Adding a constant to every price (64-bit addition) adds the same
    constant to every average: the filter only looks at differences.
    This holds for all inputs, wrap-around included. *)
Theorem ema_q16_translation :
  forall alpha_sh c prices,
    ema_q16 (map (fun x => Int64.add x c) prices) alpha_sh
    = map (fun a => Int64.add a c) (ema_q16 prices alpha_sh).
Proof.
  intros alpha_sh c prices. unfold ema_q16.
  destruct prices as [| x xs]; [reflexivity|].
  cbn [map ema_loop ema_update]. f_equal.
  revert x. induction xs as [| y ys IH]; intros x; [reflexivity|].
  cbn [map ema_loop].
  assert (E : ema_update alpha_sh (Some (Int64.add x c)) (Int64.add y c)
              = Int64.add (ema_update alpha_sh (Some x) y) c).
  { cbn [ema_update]. unfold Int64.add, Int64.sub.
    rewrite wrap_sub_l, wrap_sub_r.
    replace (y + c - (x + c)) with (y - x) by lia.
    rewrite !wrap_add_l. f_equal. lia. }
  rewrite E. f_equal. apply IH.
Qed.

Lemma ema_update_cases alpha_sh a x :
  0 <= alpha_sh ->
  Int64.in_range a -> Int64.in_range x -> Int64.in_range (x - a) ->
  (x < a -> x <= ema_update alpha_sh (Some a) x < a)
  /\ (a <= x < a + 2 ^ alpha_sh -> ema_update alpha_sh (Some a) x = a).
Proof.
  intros Hsh Ha Hx Hd.
  rewrite (ema_update_exact alpha_sh Hsh a x Ha Hx Hd).
  pose proof (Int64Facts.pow2_pos alpha_sh Hsh) as Hp. split.
  - intros Hlt.
    pose proof (Int64Facts.floor_div_neg (x - a) alpha_sh Hsh ltac:(lia)). lia.
  - intros [Hle Hlt]. rewrite Z.div_small; lia.
Qed.

(** X4.  One update never overshoots and rounds toward the lower side:
    a lower price always pulls the average down (by at least 1, not
    below the price); a higher price closer than [2^alpha_sh] leaves the
    average where it is; a higher price at least [2^alpha_sh] away pulls
    it up, not above the price. *)
Theorem ema_update_progress :
  forall alpha_sh a x,
    0 <= alpha_sh ->
    Int64.in_range a -> Int64.in_range x -> Int64.in_range (x - a) ->
    (x < a -> x <= ema_update alpha_sh (Some a) x < a)
    /\ (a <= x < a + 2 ^ alpha_sh -> ema_update alpha_sh (Some a) x = a)
    /\ (a + 2 ^ alpha_sh <= x -> a < ema_update alpha_sh (Some a) x <= x).
Proof.
  intros alpha_sh a x Hsh Ha Hx Hd.
  rewrite (ema_update_exact alpha_sh Hsh a x Ha Hx Hd).
  pose proof (Int64Facts.pow2_pos alpha_sh Hsh) as Hp.
  split; [|split].
  - intros Hlt.
    pose proof (Int64Facts.floor_div_neg (x - a) alpha_sh Hsh ltac:(lia)). lia.
  - intros [Hle Hlt]. rewrite Z.div_small; lia.
  - intros Hfar.
    pose proof (Int64Facts.floor_div_nonneg (x - a) alpha_sh Hsh ltac:(lia)).
    assert (1 <= (x - a) / 2 ^ alpha_sh)
      by (apply Z.div_le_lower_bound; lia).
    lia.
Qed.

Lemma ema_update_progress_witness :
  90 <= ema_update 6 (Some 100) 90 < 100
  /\ ema_update 6 (Some 100) 163 = 100
  /\ 100 < ema_update 6 (Some 100) 164 <= 164.
Proof.
  assert (R : forall z, -1000 <= z <= 1000 -> Int64.in_range z)
    by (intros z Hz; unfold Int64.in_range, Int64.min_int, Int64.max_int; lia).
  pose proof (ema_update_progress 6 100 90 ltac:(lia) (R 100 ltac:(lia))
                (R 90 ltac:(lia)) (R (90 - 100) ltac:(lia))) as (H1 & _ & _).
  pose proof (ema_update_progress 6 100 163 ltac:(lia) (R 100 ltac:(lia))
                (R 163 ltac:(lia)) (R (163 - 100) ltac:(lia))) as (_ & H2 & _).
  pose proof (ema_update_progress 6 100 164 ltac:(lia) (R 100 ltac:(lia))
                (R 164 ltac:(lia)) (R (164 - 100) ltac:(lia))) as (_ & _ & H3).
  split; [apply H1; lia|]. split; [apply H2; lia | apply H3; lia].
Defined.

(** X5.  After a price [a], a constant lower price [c] is reached exactly:
    once at least [a - c] further samples of [c] have been fed, the
    average is [c]. *)
Theorem ema_reaches_lower_constant :
  forall alpha_sh c n a,
    0 <= alpha_sh ->
    Int64.in_range a -> Int64.in_range c ->
    c <= a -> a - c <= Int64.max_int -> a - c <= Z.of_nat n ->
    last_avg None (ema_q16 (a :: repeat c n) alpha_sh) = Some c.
Proof.
  intros alpha_sh c n a Hsh Ha Hc Hle Hrep Hn.
  unfold ema_q16, last_avg. cbn [ema_loop ema_update map].
  rewrite last_cons_default.
  revert a Ha Hle Hrep Hn. induction n as [| n IH]; intros a Ha Hle Hrep Hn.
  - cbn. f_equal. lia.
  - cbn [repeat ema_loop map]. rewrite last_cons_default.
    assert (Hd : Int64.in_range (c - a))
      by (unfold Int64.in_range, Int64.min_int, Int64.max_int in *; lia).
    destruct (ema_update_cases alpha_sh a c Hsh Ha Hc Hd) as (Hdown & Hstay).
    pose proof (Int64Facts.pow2_pos alpha_sh Hsh) as Hp.
    assert (Hnext : c <= ema_update alpha_sh (Some a) c <= a
                    /\ ema_update alpha_sh (Some a) c - c <= Z.of_nat n).
    { destruct (Z.eq_dec a c) as [-> | Hne].
      - rewrite Hstay by lia. lia.
      - specialize (Hdown ltac:(lia)). lia. }
    apply IH; unfold Int64.in_range, Int64.min_int, Int64.max_int in *; lia.
Qed.

Lemma ema_reaches_lower_constant_witness :
  last_avg None (ema_q16 (103 :: repeat 100 3) 6) = Some 100.
Proof.
  apply ema_reaches_lower_constant;
    unfold Int64.in_range, Int64.min_int, Int64.max_int; cbn; lia.
Defined.

(** X6.  After a price [a], a constant higher price [c] closer than
    [2^alpha_sh] (and within 64-bit reach of [a]) is never approached:
    every further average stays [a]. *)
Theorem ema_stalls_below_constant :
  forall alpha_sh c n a,
    0 <= alpha_sh ->
    Int64.in_range a -> Int64.in_range c ->
    a <= c < a + 2 ^ alpha_sh -> c - a <= Int64.max_int ->
    ema_q16 (a :: repeat c n) alpha_sh = a :: repeat a n.
Proof.
  intros alpha_sh c n a Hsh Ha Hc Hnear Hrep.
  unfold ema_q16. cbn [ema_loop ema_update]. f_equal.
  assert (Hd : Int64.in_range (c - a))
    by (unfold Int64.in_range, Int64.min_int, Int64.max_int in *; lia).
  destruct (ema_update_cases alpha_sh a c Hsh Ha Hc Hd) as (_ & Hstay).
  specialize (Hstay Hnear).
  induction n as [| n IH]; [reflexivity|].
  cbn [repeat ema_loop]. rewrite Hstay. f_equal. exact IH.
Qed.

Lemma ema_stalls_below_constant_witness :
  ema_q16 (6553600 :: repeat 6553663 4) 6 = 6553600 :: repeat 6553600 4.
Proof.
  apply ema_stalls_below_constant;
    unfold Int64.in_range, Int64.min_int, Int64.max_int; lia.
Defined.

Lemma ema_update_monotone alpha_sh a b x y :
  0 <= alpha_sh ->
  Int64.in_range a -> Int64.in_range b ->
  Int64.in_range x -> Int64.in_range y ->
  Int64.in_range (x - a) -> Int64.in_range (y - b) ->
  a <= b -> x <= y ->
  ema_update alpha_sh (Some a) x <= ema_update alpha_sh (Some b) y.
Proof.
  intros Hsh Ha Hb Hx Hy Hxa Hyb Hab Hxy.
  rewrite (ema_update_exact alpha_sh Hsh a x Ha Hx Hxa).
  rewrite (ema_update_exact alpha_sh Hsh b y Hb Hy Hyb).
  pose proof (Int64Facts.pow2_pos alpha_sh Hsh) as Hp.
  rewrite (Z.add_comm a), (Z.add_comm b).
  rewrite <- !Z.div_add by lia.
  apply Z.div_le_mono; [lia | nia].
Qed.

Lemma ema_loop_monotone alpha_sh lo hi :
  0 <= alpha_sh ->
  Int64.in_range lo -> Int64.in_range hi -> hi - lo <= Int64.max_int ->
  forall xs ys,
    Forall2 Z.le xs ys ->
    Forall (within lo hi) xs -> Forall (within lo hi) ys ->
    forall a b,
      a <= b -> within lo hi a -> within lo hi b ->
      Forall2 Z.le (ema_loop alpha_sh (Some a) xs) (ema_loop alpha_sh (Some b) ys).
Proof.
  intros Hsh Hlo Hhi Hspread.
  assert (Hrange : forall z, within lo hi z -> Int64.in_range z)
    by (unfold within, Int64.in_range, Int64.min_int, Int64.max_int in *; intros; lia).
  assert (Hdiff : forall u v, within lo hi u -> within lo hi v -> Int64.in_range (u - v))
    by (unfold within, Int64.in_range, Int64.min_int, Int64.max_int in *; intros; lia).
  induction 1 as [| x y xs ys Hxy Hrest IH]; intros Hxs Hys a b Hab Ha Hb;
    [constructor|].
  inversion Hxs as [| ? ? Hx Hxs']; inversion Hys as [| ? ? Hy Hys']; subst.
  cbn [ema_loop].
  assert (Hia : within lo hi (ema_update alpha_sh (Some a) x)).
  { pose proof (ema_update_between alpha_sh Hsh a x (Hrange _ Ha) (Hrange _ Hx)
                  (Hdiff _ _ Hx Ha)).
    unfold within in *. lia. }
  assert (Hib : within lo hi (ema_update alpha_sh (Some b) y)).
  { pose proof (ema_update_between alpha_sh Hsh b y (Hrange _ Hb) (Hrange _ Hy)
                  (Hdiff _ _ Hy Hb)).
    unfold within in *. lia. }
  constructor; [apply ema_update_monotone; auto|].
  apply IH; try assumption.
  apply ema_update_monotone; auto.
Qed.

(** X7.  The filter preserves order: when one price series is pointwise
    below another (both within a band whose width fits in 64 bits), its
    averages are pointwise below the other's. *)
Theorem ema_q16_monotone :
  forall alpha_sh lo hi xs ys,
    0 <= alpha_sh ->
    Int64.in_range lo -> Int64.in_range hi -> hi - lo <= Int64.max_int ->
    Forall (within lo hi) xs -> Forall (within lo hi) ys ->
    Forall2 Z.le xs ys ->
    Forall2 Z.le (ema_q16 xs alpha_sh) (ema_q16 ys alpha_sh).
Proof.
  intros alpha_sh lo hi xs ys Hsh Hlo Hhi Hspread Hxs Hys Hle.
  unfold ema_q16.
  destruct Hle as [| x y xs ys Hxy Hrest]; [constructor|].
  inversion Hxs as [| ? ? Hx Hxs']; inversion Hys as [| ? ? Hy Hys']; subst.
  cbn [ema_loop ema_update]. constructor; [exact Hxy|].
  now apply (ema_loop_monotone alpha_sh lo hi).
Qed.

Lemma ema_q16_monotone_witness :
  Forall2 Z.le (ema_q16 [100; 90; 95] 1) (ema_q16 [100; 93; 96] 1).
Proof.
  apply (ema_q16_monotone 1 0 1000);
    try (unfold Int64.in_range, Int64.min_int, Int64.max_int; lia).
  - repeat constructor; unfold within; lia.
  - repeat constructor; unfold within; lia.
  - repeat constructor; lia.
Defined.

Lemma ideal_loop_agrees alpha_sh lo hi :
  0 <= alpha_sh ->
  Int64.in_range lo -> Int64.in_range hi -> hi - lo <= Int64.max_int ->
  forall xs a,
    within lo hi a -> Forall (within lo hi) xs ->
    ema_loop alpha_sh (Some a) xs = ideal_loop alpha_sh (Some a) xs.
Proof.
  intros Hsh Hlo Hhi Hspread.
  induction xs as [| x xs IH]; intros a Ha Hxs; [reflexivity|].
  inversion Hxs as [| ? ? Hx Hxs']; subst.
  cbn [ema_loop ideal_loop ideal_update].
  assert (Hex : ema_update alpha_sh (Some a) x = a + (x - a) / 2 ^ alpha_sh).
  { apply ema_update_exact; auto;
      unfold within, Int64.in_range, Int64.min_int, Int64.max_int in *; lia. }
  assert (Hin : within lo hi (ema_update alpha_sh (Some a) x)).
  { pose proof (ema_update_between alpha_sh Hsh a x) as Hb.
    unfold within, Int64.in_range, Int64.min_int, Int64.max_int in *.
    specialize (Hb ltac:(lia) ltac:(lia) ltac:(lia)). lia. }
  rewrite <- Hex. f_equal. apply IH; assumption.
Qed.

(** X8.  On prices within a band whose width fits in 64 bits (all Q16.16
    prices are), the 64-bit loop computes exactly the recurrence
    [avg + floor ((x - avg) / 2^alpha_sh)] over the integers: no step
    wraps. *)
Theorem ema_q16_is_ideal :
  forall alpha_sh lo hi prices,
    0 <= alpha_sh ->
    Int64.in_range lo -> Int64.in_range hi -> hi - lo <= Int64.max_int ->
    Forall (within lo hi) prices ->
    ema_q16 prices alpha_sh = ideal_ema prices alpha_sh.
Proof.
  intros alpha_sh lo hi prices Hsh Hlo Hhi Hspread Hall.
  unfold ema_q16, ideal_ema.
  destruct Hall as [| x xs Hx Hxs]; [reflexivity|].
  cbn [ema_loop ideal_loop ema_update ideal_update]. f_equal.
  now apply (ideal_loop_agrees alpha_sh lo hi).
Qed.

Lemma ema_q16_is_ideal_witness :
  ema_q16 [6553600; 5898240; 6225920] 6 = ideal_ema [6553600; 5898240; 6225920] 6.
Proof.
  apply (ema_q16_is_ideal 6 (- 2 ^ 31 * 65536) (2 ^ 31 * 65536));
    try (unfold Int64.in_range, Int64.min_int, Int64.max_int; lia).
  repeat constructor; unfold within; lia.
Defined.

(* ===================================================================== *)
(** ** Further properties of the software trace *)
(* ===================================================================== *)

Lemma classify_is_signal f s : is_signal (classify f s).
Proof.
  unfold is_signal.
  destruct (classify_cases f s) as [[_ E] | [[_ E] | [_ E]]]; rewrite E; tauto.
Qed.

Lemma sw_signals_are_signals fast_sh slow_sh prices :
  Forall is_signal (sw_signals fast_sh slow_sh prices).
Proof.
  unfold sw_signals. apply Forall_forall. intros s Hs.
  apply in_map_iff in Hs. destruct Hs as (fs & <- & _). apply classify_is_signal.
Qed.

(** X9.  The first software row is always [(1, HOLD)]: both averages
    start at the first price, whatever the price and the two shifts. *)
Theorem sw_first_tick_is_hold :
  forall fast_sh slow_sh x xs,
    hd_error (sw_frame_with fast_sh slow_sh (x :: xs)) = Some (1, HOLD)
    /\ hd_error (sw_frame (x :: xs)) = Some (1, HOLD).
Proof.
  assert (H : forall fast_sh slow_sh x xs,
             hd_error (sw_frame_with fast_sh slow_sh (x :: xs)) = Some (1, HOLD)).
  { intros fast_sh slow_sh x xs. unfold sw_frame_with, sw_signals, ema_q16.
    cbn [ema_loop ema_update combine map fst snd List.length].
    unfold range1. cbn [seq map combine hd_error Z.of_nat].
    unfold classify. rewrite Z.gtb_ltb, Z.ltb_irrefl. reflexivity. }
  intros fast_sh slow_sh x xs. split; [apply H | apply (H FAST_SH SLOW_SH)].
Qed.

Lemma ema_loop_constant alpha_sh c n :
  0 <= alpha_sh -> Int64.in_range c ->
  ema_loop alpha_sh (Some c) (repeat c n) = repeat c n.
Proof.
  intros Hsh Hc.
  assert (Hstep : ema_update alpha_sh (Some c) c = c).
  { rewrite ema_update_exact; try assumption.
    - rewrite Z.sub_diag, Z.div_0_l; [lia|].
      pose proof (Int64Facts.pow2_pos alpha_sh Hsh). lia.
    - rewrite Z.sub_diag.
      unfold Int64.in_range, Int64.min_int, Int64.max_int. lia. }
  induction n as [| n IH]; [reflexivity|].
  cbn [repeat ema_loop]. rewrite Hstep. f_equal. exact IH.
Qed.

Lemma ema_q16_constant alpha_sh c n :
  0 <= alpha_sh -> Int64.in_range c ->
  ema_q16 (repeat c n) alpha_sh = repeat c n.
Proof.
  intros Hsh Hc. unfold ema_q16. destruct n as [| n]; [reflexivity|].
  cbn [repeat ema_loop ema_update]. f_equal. now apply ema_loop_constant.
Qed.

(** X10.  A flat price series gives an all-HOLD software trace: for [n]
    copies of a 64-bit price and any two shifts [>= 0], every one of the
    [n] signals is HOLD. *)
Theorem sw_flat_prices_all_hold :
  forall fast_sh slow_sh c n,
    0 <= fast_sh -> 0 <= slow_sh -> Int64.in_range c ->
    sw_signals fast_sh slow_sh (repeat c n) = repeat HOLD n.
Proof.
  intros fast_sh slow_sh c n Hf Hs Hc. unfold sw_signals.
  rewrite !ema_q16_constant by assumption.
  induction n as [| n IH]; [reflexivity|].
  cbn [repeat combine map fst snd]. rewrite IH. f_equal.
  unfold classify, HOLD. now rewrite Z.gtb_ltb, Z.ltb_irrefl.
Qed.

Lemma sw_flat_prices_all_hold_witness :
  sw_signals 1 6 (repeat 6553600 4) = repeat HOLD 4.
Proof.
  apply sw_flat_prices_all_hold;
    unfold Int64.in_range, Int64.min_int, Int64.max_int; lia.
Defined.

(* ===================================================================== *)
(** ** Further properties of the log parser *)
(* ===================================================================== *)

Local Open Scope string_scope.
Local Open Scope Z_scope.
Local Open Scope list_scope.

Lemma take_while_all p s : all_chars p (take_while p s) = true.
Proof.
  induction s as [| c s IH]; [reflexivity|].
  cbn [take_while]. destruct (p c) eqn:E; [|reflexivity].
  cbn [all_chars]. now rewrite E, IH.
Qed.

Lemma take_while_app p w rest :
  all_chars p w = true -> not_headed_by p rest = true ->
  take_while p (w ++ rest)%string = w.
Proof.
  intros Hw Hrest. induction w as [| c w IH].
  - cbn. destruct rest as [| c r]; [reflexivity|].
    cbn in Hrest |- *. destruct (p c); [discriminate | reflexivity].
  - cbn in Hw |- *. apply andb_prop in Hw. destruct Hw as [Hc Hw].
    rewrite Hc. f_equal. now apply IH.
Qed.

Lemma drop_while_app p w rest :
  all_chars p w = true -> not_headed_by p rest = true ->
  drop_while p (w ++ rest)%string = rest.
Proof.
  intros Hw Hrest. induction w as [| c w IH].
  - cbn. destruct rest as [| c r]; [reflexivity|].
    cbn in Hrest |- *. destruct (p c); [discriminate | reflexivity].
  - cbn in Hw |- *. apply andb_prop in Hw. destruct Hw as [Hc Hw].
    rewrite Hc. now apply IH.
Qed.

Lemma digit_not_space c : is_digit c = true -> is_space c = false.
Proof.
  unfold is_digit, is_space. intros H.
  apply andb_prop in H. destruct H as [H1 H2].
  apply N.leb_le in H1. apply N.leb_le in H2.
  apply orb_false_iff. split; apply andb_false_iff.
  - right. apply N.leb_gt. lia.
  - right. apply N.leb_gt. lia.
Qed.

Lemma space_not_digit c : is_space c = true -> is_digit c = false.
Proof.
  intros H. destruct (is_digit c) eqn:E; [|reflexivity].
  rewrite (digit_not_space c E) in H. discriminate.
Qed.

Lemma int_digits_nonneg s :
  all_chars is_digit s = true -> forall acc, 0 <= acc -> 0 <= int_digits acc s.
Proof.
  induction s as [| c s IH]; intros Hs acc Hacc; [exact Hacc|].
  cbn [all_chars int_digits] in Hs |- *.
  apply andb_prop in Hs. destruct Hs as [Hc Hs].
  apply IH; [exact Hs|].
  unfold is_digit in Hc. apply andb_prop in Hc. destruct Hc as [H1 _].
  apply N.leb_le in H1. lia.
Qed.

Lemma decode_is_signal c : is_signal (decode_signal c).
Proof.
  unfold is_signal, decode_signal, BUY, SELL, HOLD.
  destruct (c =? 3); [tauto|]. destruct (c =? 1); tauto.
Qed.

(** What a successful anchored match returns. *)
Lemma match_at_groups s g1 g2 :
  match_at s = Some (g1, g2) ->
  all_chars is_digit g1 = true /\ g1 <> EmptyString
  /\ all_chars is_digit g2 = true /\ g2 <> EmptyString.
Proof.
  unfold match_at.
  destruct (strip_prefix "tick" s) as [r1 |]; [|discriminate].
  destruct (is_empty (take_while is_space r1)); [discriminate|].
  destruct (is_empty (take_while is_digit (drop_while is_space r1))) eqn:E1;
    [discriminate|].
  destruct (strip_prefix "->" _) as [r4 |]; [|discriminate].
  destruct (strip_prefix "signal=" _) as [r5 |]; [|discriminate].
  destruct (is_empty (take_while is_digit r5)) eqn:E2; [discriminate|].
  intros H. injection H as <- <-.
  repeat split; try apply take_while_all.
  - intros E. rewrite E in E1. discriminate.
  - intros E. rewrite E in E2. discriminate.
Qed.

Lemma re_search_groups line g1 g2 :
  re_search line = Some (g1, g2) ->
  all_chars is_digit g1 = true /\ g1 <> EmptyString
  /\ all_chars is_digit g2 = true /\ g2 <> EmptyString.
Proof.
  induction line as [| c line IH]; cbn [re_search].
  - destruct (match_at "") as [m |] eqn:E; [|discriminate].
    intros H. injection H as ->. now apply match_at_groups with (s := "").
  - destruct (match_at (String c line)) as [m |] eqn:E; [|exact IH].
    intros H. injection H as ->. now apply match_at_groups with (s := String c line).
Qed.

(** X11.  Whenever the pattern matches a line, wherever in the line the
    match starts, both captured groups are non-empty strings of ASCII
    decimal digits: what the two [int] calls are given is always a
    well-formed decimal literal, never an empty or non-numeric string. *)
Theorem parse_line_well_formed :
  forall line g1 g2,
    re_search line = Some (g1, g2) ->
    all_chars is_digit g1 = true /\ g1 <> EmptyString
    /\ all_chars is_digit g2 = true /\ g2 <> EmptyString.
Proof.
  intros line. induction line as [| c line IH]; intros g1 g2; cbn [re_search].
  - destruct (match_at "") as [m |] eqn:E; [|discriminate].
    intros H. injection H as ->. now apply match_at_groups with (s := "").
  - destruct (match_at (String c line)) as [m |] eqn:E; [|apply IH].
    intros H. injection H as ->.
    now apply match_at_groups with (s := String c line).
Qed.

Lemma parse_line_well_formed_witness :
  all_chars is_digit "87" = true /\ "87" <> EmptyString
  /\ all_chars is_digit "3" = true /\ "3" <> EmptyString.
Proof.
  apply (parse_line_well_formed
           "[sim] tick 87 -> signal=3  fast=6553600 slow=6553601" "87" "3").
  reflexivity.
Defined.

Lemma re_search_at s m : match_at s = Some m -> re_search s = Some m.
Proof. intros H. destruct s; cbn [re_search]; now rewrite H. Qed.

Lemma is_empty_false s : s <> EmptyString -> is_empty s = false.
Proof. destruct s; [congruence | reflexivity]. Qed.

Lemma headed_by_digit_not_space d rest :
  all_chars is_digit d = true -> d <> EmptyString ->
  not_headed_by is_space (d ++ rest)%string = true.
Proof.
  destruct d as [| c d]; [congruence|]. cbn. intros H _.
  apply andb_prop in H. destruct H as [Hc _].
  now rewrite (digit_not_space c Hc).
Qed.

Lemma spaces_then_not_digit w rest :
  all_chars is_space w = true -> not_headed_by is_digit rest = true ->
  not_headed_by is_digit (w ++ rest)%string = true.
Proof.
  destruct w as [| c w]; [intros _ H; exact H|]. cbn. intros H _.
  apply andb_prop in H. destruct H as [Hc _].
  now rewrite (space_not_digit c Hc).
Qed.

(** X12.  A line that starts with a record in the documented shape --
    [tick], at least one blank, the tick digits, optional blanks, [->],
    optional blanks, [signal=], the code digits, then anything that does
    not continue the code -- is parsed to that tick and the decoded
    code. *)
Theorem parse_line_accepts_record :
  forall w1 d1 w2 w3 d2 rest,
    all_chars is_space w1 = true -> w1 <> EmptyString ->
    all_chars is_digit d1 = true -> d1 <> EmptyString ->
    all_chars is_space w2 = true ->
    all_chars is_space w3 = true ->
    all_chars is_digit d2 = true -> d2 <> EmptyString ->
    not_headed_by is_digit rest = true ->
    parse_line ("tick" ++ w1 ++ d1 ++ w2 ++ "->" ++ w3 ++ "signal=" ++ d2 ++ rest)%string
    = Some (int d1, decode_signal (int d2)).
Proof.
  intros w1 d1 w2 w3 d2 rest Hw1 Nw1 Hd1 Nd1 Hw2 Hw3 Hd2 Nd2 Hrest.
  unfold parse_line.
  rewrite (re_search_at _ (d1, d2)); [reflexivity|].
  unfold match_at.
  change (strip_prefix "tick"
            ("tick" ++ w1 ++ d1 ++ w2 ++ "->" ++ w3 ++ "signal=" ++ d2 ++ rest)%string)
    with (Some (w1 ++ d1 ++ w2 ++ "->" ++ w3 ++ "signal=" ++ d2 ++ rest)%string).
  cbv beta iota.
  rewrite (take_while_app is_space w1), (drop_while_app is_space w1);
    try assumption; try (now apply headed_by_digit_not_space).
  rewrite (is_empty_false w1 Nw1). cbv beta iota zeta.
  assert (Hnd : not_headed_by is_digit
                  (w2 ++ "->" ++ w3 ++ "signal=" ++ d2 ++ rest)%string = true)
    by (now apply spaces_then_not_digit).
  rewrite (take_while_app is_digit d1), (drop_while_app is_digit d1) by assumption.
  rewrite (is_empty_false d1 Nd1). cbv beta iota zeta.
  rewrite (drop_while_app is_space w2) by (assumption || reflexivity).
  change (strip_prefix "->" ("->" ++ w3 ++ "signal=" ++ d2 ++ rest)%string)
    with (Some (w3 ++ "signal=" ++ d2 ++ rest)%string).
  cbv beta iota.
  rewrite (drop_while_app is_space w3) by (assumption || reflexivity).
  change (strip_prefix "signal=" ("signal=" ++ d2 ++ rest)%string)
    with (Some (d2 ++ rest)%string).
  cbv beta iota.
  rewrite (take_while_app is_digit d2) by assumption.
  now rewrite (is_empty_false d2 Nd2).
Qed.

Lemma parse_line_accepts_record_witness :
  parse_line "tick 87 -> signal=3  fast=6553600 slow=6553601" = Some (87, SELL).
Proof.
  apply (parse_line_accepts_record " " "87" " " " " "3" "  fast=6553600 slow=6553601");
    solve [reflexivity | discriminate].
Defined.

Lemma drop_dups_from_id rows :
  forall seen,
    NoDup (frame_ticks rows) ->
    (forall t, In t (frame_ticks rows) -> ~ In t seen) ->
    drop_dups_from seen rows = rows.
Proof.
  unfold frame_ticks.
  induction rows as [| [t0 s0] rows IH]; intros seen Hnd Hfresh; [reflexivity|].
  cbn [drop_dups_from map fst] in *. inversion Hnd as [| ? ? Hnotin Hnd']; subst.
  destruct (existsb (Z.eqb t0) seen) eqn:E.
  - exfalso. apply (Hfresh t0); [now left | now apply existsb_eqb_In].
  - f_equal. apply IH; [exact Hnd'|].
    intros t Ht [<- | Hs]; [contradiction|].
    apply (Hfresh t); [now right | exact Hs].
Qed.

(** X13.  The frame returned by [read_hw_log] has one row per tick (no
    tick twice), covers exactly the ticks of the matching lines, and
    every row comes from a matching line, with a natural-number tick and
    a signal that is BUY, SELL or HOLD. *)
Theorem read_hw_log_frame_invariants :
  forall lines hw,
    read_hw_log (Some lines) = Return hw ->
    NoDup (frame_ticks hw)
    /\ (forall t, In t (frame_ticks hw) <-> In t (frame_ticks (hw_rows lines)))
    /\ (forall r, In r hw ->
          (exists l, In l lines /\ parse_line l = Some r)
          /\ 0 <= fst r /\ is_signal (snd r)).
Proof.
  intros lines hw H. cbn [read_hw_log] in H. injection H as <-.
  unfold drop_duplicates.
  destruct (drop_dups_from_spec (hw_rows lines) []) as (Hnd & Hsub & Hall).
  split; [exact Hnd|]. split.
  - intros t. split.
    + unfold frame_ticks. intros Ht. apply in_map_iff in Ht.
      destruct Ht as (r & <- & Hr). apply in_map. now apply Hsub.
    + intros Ht. apply Hall; [exact Ht | intros []].
  - intros r Hr. destruct (Hsub r Hr) as [Hin _].
    destruct (hw_rows_In r lines Hin) as (l & Hl & Hp).
    split; [now exists l|].
    unfold parse_line in Hp. destruct (re_search l) as [[g1 g2] |] eqn:E; [|discriminate].
    injection Hp as <-. cbn [fst snd].
    destruct (re_search_groups l g1 g2 E) as (D1 & _ & _ & _). split.
    + apply int_digits_nonneg; [exact D1 | lia].
    + apply decode_is_signal.
Qed.

Lemma read_hw_log_frame_invariants_witness :
  NoDup (frame_ticks [(5, 1); (4, 0)])
  /\ (forall t, In t (frame_ticks [(5, 1); (4, 0)])
                <-> In t (frame_ticks (hw_rows ["tick 5 -> signal=1"; "boot";
                                                "tick 5 -> signal=3"; "tick 4 -> signal=2"])))
  /\ (forall r, In r [(5, 1); (4, 0)] ->
        (exists l, In l ["tick 5 -> signal=1"; "boot";
                         "tick 5 -> signal=3"; "tick 4 -> signal=2"]
                   /\ parse_line l = Some r)
        /\ 0 <= fst r /\ is_signal (snd r)).
Proof.
  apply (read_hw_log_frame_invariants
           ["tick 5 -> signal=1"; "boot"; "tick 5 -> signal=3"; "tick 4 -> signal=2"]).
  reflexivity.
Defined.

(** X14.  De-duplication is idempotent, and it leaves a frame whose ticks
    are already distinct unchanged. *)
Theorem drop_duplicates_idempotent :
  forall rows,
    drop_duplicates (drop_duplicates rows) = drop_duplicates rows
    /\ (NoDup (frame_ticks rows) -> drop_duplicates rows = rows).
Proof.
  assert (Hid : forall rows, NoDup (frame_ticks rows) -> drop_duplicates rows = rows).
  { intros rows Hnd. unfold drop_duplicates.
    apply drop_dups_from_id; [exact Hnd | intros t _ []]. }
  intros rows. split; [|apply Hid].
  apply Hid. unfold drop_duplicates.
  now destruct (drop_dups_from_spec rows []) as (Hnd & _).
Qed.

Lemma drop_duplicates_idempotent_witness :
  drop_duplicates (drop_duplicates [(2, 1); (1, 0); (2, -1)])
  = drop_duplicates [(2, 1); (1, 0); (2, -1)]
  /\ drop_duplicates [(2, 1); (1, 0)] = [(2, 1); (1, 0)].
Proof.
  split.
  - apply (drop_duplicates_idempotent [(2, 1); (1, 0); (2, -1)]).
  - apply (drop_duplicates_idempotent [(2, 1); (1, 0)]).
    repeat constructor; cbn; intuition congruence.
Defined.

(** X15.  Lines without a record are skipped: removing such a line from
    the log changes neither the parsed frame nor the outcome of the
    run. *)
Theorem unmatched_line_is_ignored :
  forall pre junk post prices,
    re_search junk = None ->
    read_hw_log (Some (pre ++ junk :: post)) = read_hw_log (Some (pre ++ post))
    /\ main prices (Some (pre ++ junk :: post)) = main prices (Some (pre ++ post)).
Proof.
  intros pre junk post prices H.
  assert (E : hw_rows (pre ++ junk :: post) = hw_rows (pre ++ post)).
  { rewrite !hw_rows_app. cbn [hw_rows]. unfold parse_line at 1. now rewrite H. }
  unfold main, read_hw_log. rewrite E. split; reflexivity.
Qed.

Lemma unmatched_line_is_ignored_witness :
  read_hw_log (Some (["tick 1 -> signal=1"] ++ "VCD info: dumpfile" :: ["tick 2 -> signal=3"]))
  = read_hw_log (Some (["tick 1 -> signal=1"] ++ ["tick 2 -> signal=3"]))
  /\ main [6553600; 6553600]
          (Some (["tick 1 -> signal=1"] ++ "VCD info: dumpfile" :: ["tick 2 -> signal=3"]))
     = main [6553600; 6553600]
            (Some (["tick 1 -> signal=1"] ++ ["tick 2 -> signal=3"])).
Proof.
  apply unmatched_line_is_ignored. reflexivity.
Defined.

(* ===================================================================== *)
(** ** Further properties of the merge and of the report *)
(* ===================================================================== *)

Lemma merge_inner_In hw sw t h s :
  In (mk_row t h s) (merge_inner hw sw) <-> In (t, h) hw /\ In (t, s) sw.
Proof.
  unfold merge_inner. rewrite in_flat_map. split.
  - intros ([t1 h1] & Hl & Hin). apply in_map_iff in Hin.
    destruct Hin as ([t2 s2] & E & Hf). apply filter_In in Hf.
    destruct Hf as [Hr Heq]. cbn [fst snd] in *. apply Z.eqb_eq in Heq.
    injection E as <- <- <-. subst. split; assumption.
  - intros [Hl Hr]. exists (t, h). split; [exact Hl|].
    apply in_map_iff. exists (t, s). split; [reflexivity|].
    apply filter_In. split; [exact Hr | apply Z.eqb_refl].
Qed.

(** X16.  The merge is an inner join on the tick: a row [(t, h, s)] is
    in the merged frame exactly when [(t, h)] is a hardware row and
    [(t, s)] a software row; ticks present on one side only are left
    out. *)
Theorem merge_inner_is_inner_join :
  forall hw sw t h s,
    In (mk_row t h s) (merge_inner hw sw) <-> In (t, h) hw /\ In (t, s) sw.
Proof.
  intros hw sw t h s. split.
  - intros H. now apply merge_inner_In.
  - intros H. now apply merge_inner_In.
Qed.

Lemma merge_inner_empty_iff hw sw :
  merge_inner hw sw = [] <->
  (forall t, In t (frame_ticks hw) -> ~ In t (frame_ticks sw)).
Proof.
  unfold frame_ticks. split.
  - intros E t Hh Hs. apply in_map_iff in Hh. destruct Hh as ([t1 h] & <- & Hh).
    apply in_map_iff in Hs. destruct Hs as ([t2 s] & E2 & Hs). cbn [fst] in *. subst.
    assert (Hin : In (mk_row t1 h s) (merge_inner hw sw))
      by (apply merge_inner_In; split; assumption).
    rewrite E in Hin. contradiction.
  - intros Hdisj. destruct (merge_inner hw sw) as [| [t h s] m] eqn:E; [reflexivity|].
    exfalso.
    assert (Hin : In (mk_row t h s) (merge_inner hw sw)) by (rewrite E; now left).
    apply merge_inner_In in Hin. destruct Hin as [Hh Hs].
    apply (Hdisj t).
    + apply in_map_iff. now exists (t, h).
    + apply in_map_iff. now exists (t, s).
Qed.

(** X17.  [compare] ends with the no-overlap message exactly when the
    two frames share no tick; otherwise it produces a report. *)
Theorem compare_no_overlap_iff :
  forall hw sw,
    compare hw sw = NoOverlap <->
    (forall t, In t (frame_ticks hw) -> ~ In t (frame_ticks sw)).
Proof.
  intros hw sw. rewrite <- merge_inner_empty_iff. unfold compare.
  destruct (merge_inner hw sw) as [| x m]; split; intros H;
    try reflexivity; discriminate.
Qed.

Lemma match_col_count m :
  sum_Z (map match_col m)
  + Z.of_nat (List.length (filter (fun r => match_col r =? 0) m))
  = Z.of_nat (List.length m)
  /\ 0 <= sum_Z (map match_col m) <= Z.of_nat (List.length m).
Proof.
  induction m as [| r m [IH1 IH2]]; [cbn; lia|].
  assert (Hc : match_col r = 0 \/ match_col r = 1)
    by (unfold match_col; destruct (hw_sig r =? sw_sig r); auto).
  cbn [map filter]. unfold sum_Z in *. cbn [fold_right].
  destruct Hc as [Hc | Hc]; rewrite Hc.
  - change (0 =? 0) with true. cbn [List.length]. rewrite !Nat2Z.inj_succ. lia.
  - change (1 =? 0) with false. cbn [List.length]. rewrite !Nat2Z.inj_succ. lia.
Qed.

Lemma rate_as_fraction h n :
  0 < n -> (inject_Z h / inject_Z n * 100 == (100 * h) # Z.to_pos n)%Q.
Proof.
  intros Hn. destruct n as [| p | p]; try lia.
  unfold Qeq, Qdiv, Qmult, Qinv, inject_Z.
  cbn [Qnum Qden Z.to_pos]. rewrite Pos.mul_1_l, Pos.mul_1_r. lia.
Qed.

(** X18.  In every report the counts add up: at least one tick was
    compared, ticks compared = matches + mismatches, the number of
    matches lies between 0 and the ticks compared, there is no mismatch
    exactly when every compared tick matches, and the mismatch records
    are exactly the rows of the table whose two signals differ. *)
Theorem report_counts_consistent :
  forall hw sw r,
    compare hw sw = Report r ->
    (0 < ticks_compared r)%nat
    /\ ticks_compared r = List.length (merged r)
    /\ Z.of_nat (ticks_compared r)
       = match_count r + Z.of_nat (List.length (mismatches r))
    /\ 0 <= match_count r <= Z.of_nat (ticks_compared r)
    /\ (mismatches r = [] <-> match_count r = Z.of_nat (ticks_compared r))
    /\ (forall x, In x (mismatches r)
                  <-> In x (merged r) /\ hw_sig x <> sw_sig x).
Proof.
  intros hw sw r H. unfold compare in H.
  destruct (merge_inner hw sw) as [| x0 m] eqn:E; [discriminate|].
  assert (Hlen : (0 < List.length (x0 :: m))%nat) by (cbn [List.length]; lia).
  remember (x0 :: m) as rows eqn:Hrows. clear Hrows E.
  injection H as <-. cbn [ticks_compared merged match_count mismatches].
  destruct (match_col_count rows) as [Hsum Hbound].
  split; [exact Hlen|]. split; [reflexivity|]. split; [lia|].
  split; [exact Hbound|]. split; [split|].
  - intros Hnil. rewrite Hnil in Hsum. cbn [List.length] in Hsum. lia.
  - intros Hall. apply length_zero_iff_nil. lia.
  - intros x. rewrite filter_In. unfold match_col.
    destruct (Z.eqb_spec (hw_sig x) (sw_sig x)) as [Heq | Hne]; split.
    + intros [_ Hbad]. discriminate.
    + intros [_ Hbad]. contradiction.
    + intros [Hin _]. split; assumption.
    + intros [Hin _]. split; [exact Hin | reflexivity].
Qed.

Lemma report_counts_consistent_witness :
  exists r,
    compare [(1, 1); (2, -1); (3, 0)] [(2, -1); (3, 1); (4, 0)] = Report r
    /\ (0 < ticks_compared r)%nat
    /\ Z.of_nat (ticks_compared r)
       = match_count r + Z.of_nat (List.length (mismatches r))
    /\ 0 <= match_count r <= Z.of_nat (ticks_compared r).
Proof.
  eexists. split; [reflexivity|].
  pose proof (report_counts_consistent
                [(1, 1); (2, -1); (3, 0)] [(2, -1); (3, 1); (4, 0)] _ eq_refl)
    as (H1 & _ & H3 & H4 & _).
  split; [exact H1|]. split; [exact H3 | exact H4].
Defined.

Lemma sw_frame_rows prices t s :
  In (t, s) (sw_frame prices) ->
  1 <= t <= Z.of_nat (List.length prices) /\ is_signal s.
Proof.
  unfold sw_frame, sw_frame_with. intros H.
  pose proof (in_combine_l _ _ _ _ H) as Ht.
  pose proof (in_combine_r _ _ _ _ H) as Hs.
  rewrite sw_signals_length in Ht. split; [now apply range1_In|].
  pose proof (sw_signals_are_signals FAST_SH SLOW_SH prices) as Hall.
  rewrite Forall_forall in Hall. now apply Hall.
Qed.

Lemma hw_frame_rows lines t h :
  In (t, h) (drop_duplicates (hw_rows lines)) -> is_signal h.
Proof.
  intros H. unfold drop_duplicates in H.
  destruct (drop_dups_from_spec (hw_rows lines) []) as (_ & Hsub & _).
  destruct (Hsub _ H) as [Hin _].
  destruct (hw_rows_In _ _ Hin) as (l & _ & Hp).
  unfold parse_line in Hp. destruct (re_search l); [|discriminate].
  injection Hp as _ <-. apply decode_is_signal.
Qed.

(** X19.  In a report of [main] over [N] prices, every compared tick lies
    in [1..N] and occurs once, both signals of every row are BUY, SELL
    or HOLD, and at most [N] ticks are compared: hardware records for
    ticks outside [1..N] never enter the comparison. *)
Theorem main_report_bounds :
  forall prices lines r,
    main prices (Some lines) = Report r ->
    NoDup (map tick (merged r))
    /\ Forall (fun x => 1 <= tick x <= Z.of_nat (List.length prices)
                        /\ is_signal (hw_sig x) /\ is_signal (sw_sig x))
              (merged r)
    /\ (ticks_compared r <= List.length prices)%nat.
Proof.
  intros prices lines r H. unfold main, read_hw_log in H.
  destruct (compare_report _ _ _ H) as [Hm _].
  assert (Hcount : ticks_compared r = List.length (merged r)).
  { unfold compare in H. destruct (merge_inner _ _); [discriminate|].
    now injection H as <-. }
  pose proof (merge_inner_ticks (drop_duplicates (hw_rows lines)) (sw_frame prices)
                (sw_frame_NoDup prices)) as Hticks.
  rewrite <- Hm in Hticks.
  assert (Hnd : NoDup (map tick (merged r))).
  { rewrite Hticks. apply NoDup_filter. unfold drop_duplicates.
    now destruct (drop_dups_from_spec (hw_rows lines) []) as (Hnd & _). }
  assert (Hrows : Forall (fun x => 1 <= tick x <= Z.of_nat (List.length prices)
                                   /\ is_signal (hw_sig x) /\ is_signal (sw_sig x))
                         (merged r)).
  { apply Forall_forall. intros [t h s] Hin. rewrite Hm in Hin.
    apply merge_inner_In in Hin. destruct Hin as [Hh Hs]. cbn [tick hw_sig sw_sig].
    destruct (sw_frame_rows prices t s Hs) as [Ht Hsig].
    split; [exact Ht|]. split; [now apply (hw_frame_rows lines t) | exact Hsig]. }
  split; [exact Hnd|]. split; [exact Hrows|].
  rewrite Hcount, <- (length_map tick), <- (range1_length (List.length prices)).
  apply NoDup_incl_length; [exact Hnd|].
  intros t Ht. apply range1_In. apply in_map_iff in Ht.
  destruct Ht as (x & <- & Hx). rewrite Forall_forall in Hrows.
  now apply Hrows.
Qed.

Lemma main_report_bounds_witness :
  exists r,
    main [6553600; 6553600]
         (Some ["tick 0 -> signal=1"; "tick 2 -> signal=3"; "tick 7 -> signal=1"]) = Report r
    /\ NoDup (map tick (merged r))
    /\ (ticks_compared r <= 2)%nat.
Proof.
  eexists. split; [reflexivity|].
  pose proof (main_report_bounds
                [6553600; 6553600]
                ["tick 0 -> signal=1"; "tick 2 -> signal=3"; "tick 7 -> signal=1"]
                _ eq_refl) as (H1 & _ & H3).
  split; assumption.
Defined.

Lemma filter_none {A} (f : A -> bool) l :
  (forall x, In x l -> f x = false) -> filter f l = [].
Proof.
  induction l as [| x l IH]; intros H; [reflexivity|].
  cbn [filter]. rewrite (H x (or_introl eq_refl)).
  apply IH. intros y Hy. apply H. now right.
Qed.

Lemma filter_tick_single sw t s :
  NoDup (frame_ticks sw) -> In (t, s) sw ->
  filter (fun r => fst r =? t) sw = [(t, s)].
Proof.
  unfold frame_ticks.
  induction sw as [| [t0 s0] sw IH]; intros Hnd Hin; [contradiction|].
  cbn [map fst] in Hnd. inversion Hnd as [| ? ? Hnotin Hnd']; subst.
  cbn [filter fst]. destruct Hin as [E | Hin].
  - injection E as -> ->. rewrite Z.eqb_refl. f_equal.
    apply filter_none. intros [t' s'] Hin'. cbn [fst]. apply Z.eqb_neq. intros ->.
    apply Hnotin. apply in_map_iff. now exists (t, s').
  - destruct (Z.eqb_spec t0 t) as [-> | Hne]; [|now apply IH].
    exfalso. apply Hnotin. apply in_map_iff. now exists (t, s).
Qed.

Lemma merge_inner_sub hw sw :
  NoDup (frame_ticks sw) -> (forall r, In r hw -> In r sw) ->
  merge_inner hw sw = map (fun r => mk_row (fst r) (snd r) (snd r)) hw.
Proof.
  intros Hnd. unfold merge_inner.
  induction hw as [| [t h] hw IH]; intros Hsub; [reflexivity|].
  cbn [flat_map map fst snd].
  rewrite (filter_tick_single sw t h Hnd (Hsub _ (or_introl eq_refl))).
  cbn [map app fst snd]. f_equal. apply IH. intros r Hr. apply Hsub. now right.
Qed.

Lemma report_counts_consistent_aux hw sw r :
  compare hw sw = Report r ->
  ticks_compared r = List.length (merged r)
  /\ (mismatches r = [] -> (acc r == 100)%Q).
Proof.
  intros H. unfold compare in H.
  destruct (merge_inner hw sw) as [| x m] eqn:E; [discriminate|].
  assert (Hlen : (0 < List.length (x :: m))%nat) by (cbn [List.length]; lia).
  remember (x :: m) as rows eqn:Hrows. clear Hrows E.
  injection H as <-. cbn [ticks_compared merged acc mismatches].
  split; [reflexivity|]. intros Hnil.
  destruct (match_col_count rows) as [Hsum _].
  rewrite Hnil in Hsum. cbn [List.length] in Hsum.
  assert (Hpos : 0 < Z.of_nat (List.length rows)) by lia.
  rewrite (rate_as_fraction _ _ Hpos). unfold Qeq. cbn [Qnum Qden].
  rewrite Z2Pos.id by exact Hpos. lia.
Qed.

(** X20.  Perfect parity is reported as such: when the records of the log
    are exactly the software trace of a non-empty price series, [main]
    reports every tick compared, no mismatch and a match rate of 100. *)
Theorem main_perfect_parity :
  forall prices lines,
    prices <> [] ->
    hw_rows lines = sw_frame prices ->
    exists r,
      main prices (Some lines) = Report r
      /\ ticks_compared r = List.length prices
      /\ mismatches r = []
      /\ (acc r == 100)%Q.
Proof.
  intros prices lines Hne Hrows.
  pose proof (sw_frame_NoDup prices) as Hnd.
  assert (Hlen : List.length (sw_frame prices) = List.length prices).
  { unfold sw_frame, sw_frame_with.
    rewrite length_combine, range1_length, sw_signals_length. apply Nat.min_id. }
  assert (Hm : merge_inner (drop_duplicates (hw_rows lines)) (sw_frame prices)
               = map (fun r => mk_row (fst r) (snd r) (snd r)) (sw_frame prices)).
  { rewrite Hrows. unfold drop_duplicates.
    rewrite (drop_dups_from_id (sw_frame prices) [] Hnd) by (intros t _ []).
    apply merge_inner_sub; auto. }
  destruct (compare (drop_duplicates (hw_rows lines)) (sw_frame prices)) as [c | | r] eqn:E.
  - unfold compare in E. destruct (merge_inner _ _); discriminate.
  - exfalso. unfold compare in E. rewrite Hm in E.
    destruct (sw_frame prices) as [| x fr] eqn:Efr; [|discriminate].
    cbn in Hlen. destruct prices; [congruence | discriminate].
  - exists r. split; [exact E|].
    destruct (compare_report _ _ _ E) as [Hmerged Hmis].
    destruct (report_counts_consistent_aux _ _ _ E) as (Hc & Hrate).
    assert (Hnil : mismatches r = []).
    { rewrite Hmis, Hm. apply filter_none. intros x Hx.
      apply in_map_iff in Hx. destruct Hx as (y & <- & _).
      unfold match_col. cbn [hw_sig sw_sig]. now rewrite Z.eqb_refl. }
    split; [|split; [exact Hnil|]].
    + now rewrite Hc, Hmerged, Hm, length_map.
    + apply Hrate. exact Hnil.
Qed.

Lemma main_perfect_parity_witness :
  exists r,
    main [6553600; 5898240; 6225920]
         (Some ["tick 1 -> signal=0"; "tick 2 -> signal=3"; "tick 3 -> signal=3"]) = Report r
    /\ ticks_compared r = 3%nat
    /\ mismatches r = []
    /\ (acc r == 100)%Q.
Proof.
  apply (main_perfect_parity
           [6553600; 5898240; 6225920]
           ["tick 1 -> signal=0"; "tick 2 -> signal=3"; "tick 3 -> signal=3"]).
  - discriminate.
  - reflexivity.
Defined.

(** X21.  The plot script decodes the hardware code exactly as the parity
    checker does: for every integer code both give BUY for 1, SELL for 3
    and HOLD otherwise. *)
Theorem plot_decode_agrees :
  forall code,
    plot_decode code = decode_signal code
    /\ is_signal (plot_decode code)
    /\ (plot_decode code = BUY <-> code = 1)
    /\ (plot_decode code = SELL <-> code = 3).
Proof.
  intros code. unfold plot_decode, decode_signal, is_signal, BUY, SELL, HOLD.
  destruct (Z.eqb_spec code 1) as [E1 | H1]; destruct (Z.eqb_spec code 3) as [E3 | H3];
    repeat split; intros; try lia; auto.
Qed.
